(** * Shallow embedding of the [icon] crate (XDG icon theme lookup).

    Sources embedded: [src/icon.rs] (IconFile, FileType), [src/theme.rs]
    (Icons, Theme, ThemeIndex, DirectoryIndex) and [src/search_dir.rs]
    (SearchDirectories, IconLocations::resolve_only).

    Conventions of the embedding:
    - OS strings and [str] are byte strings, i.e. Stdlib [string] (each
      [ascii] is one byte); [str::from_utf8] / [OsStr::to_str] are modelled
      by a UTF-8 validity check.
    - [u32] values are [Z] in [0, 2^32).  Arithmetic is evaluated under a
      build [Profile]: in a [Debug] build an out-of-range result panics, in a
      [Release] build it wraps modulo 2^32 (Rust's overflow semantics).
    - Rust panics are the [Panic] constructor of the [Outcome] monad.
    - The file system is a Section variable [path_exists : string -> bool]. *)

From Stdlib Require Import String Ascii List ZArith Lia Bool Arith.
Set Warnings "-register-all".
Import ListNotations.
Open Scope string_scope.

(** ** Outcomes of Rust code that may panic *)

Inductive Outcome (A : Type) : Type :=
| Ret (a : A)
| Panic.
Arguments Ret {A} a.
Arguments Panic {A}.

Definition bindO {A B} (m : Outcome A) (k : A -> Outcome B) : Outcome B :=
  match m with Ret a => k a | Panic => Panic end.

Notation "x <-- m ;; k" := (bindO m (fun x => k))
  (at level 61, m at next level, right associativity).

(** Build profiles: overflow checks on (debug) or wrapping (release). *)
Inductive Profile := Debug | Release.

Definition u32_max : Z := 2 ^ 32 - 1.

Definition in_u32 (z : Z) : bool := (0 <=? z)%Z && (z <=? u32_max)%Z.

(** The result of a [u32] operation whose mathematical value is [z]. *)
Definition u32_result (prof : Profile) (z : Z) : Outcome Z :=
  if in_u32 z then Ret z
  else match prof with
       | Debug => Panic
       | Release => Ret (z mod 2 ^ 32)%Z
       end.

Definition u32_sub prof (a b : Z) := u32_result prof (a - b)%Z.
Definition u32_add prof (a b : Z) := u32_result prof (a + b)%Z.
Definition u32_mul prof (a b : Z) := u32_result prof (a * b)%Z.

(** [u32::abs_diff] never overflows. *)
Definition abs_diff (a b : Z) : Z := if (a <? b)%Z then (b - a)%Z else (a - b)%Z.

(** ** DirectoryIndex (theme.rs) *)

Inductive DirectoryType := Fixed | Scalable | Threshold.

Record DirectoryIndex := {
  directory_name : string;
  is_scaled_dir : bool;
  size : Z;
  scale : Z;
  context : option string;
  directory_type : DirectoryType;
  max_size : Z;
  min_size : Z;
  threshold : Z
}.

(** [DirectoryIndex::size_distance]; the local [size] of the source
    (the requested size in pixels) is named [size'] here. *)
Definition size_distance (prof : Profile) (self : DirectoryIndex)
    (icon_size icon_scale : Z) : Outcome Z :=
  size' <-- u32_mul prof icon_size icon_scale ;;
  match directory_type self with
  | Fixed | Scalable =>
      m <-- u32_mul prof (size self) (scale self) ;;
      Ret (abs_diff m size')
  | Threshold =>
      d <-- u32_sub prof (size self) (threshold self) ;;
      lower <-- u32_mul prof d (scale self) ;;
      e <-- u32_add prof (size self) (threshold self) ;;
      higher <-- u32_mul prof e (scale self) ;;
      if (size' <? lower)%Z then
        m <-- u32_mul prof (min_size self) (scale self) ;; Ret (abs_diff size' m)
      else if (higher <? size')%Z then
        m <-- u32_mul prof (max_size self) (scale self) ;; Ret (abs_diff size' m)
      else Ret 0%Z
  end.

(** [DirectoryIndex::matches_size] *)
Definition matches_size (self : DirectoryIndex) (icon_size icon_scale : Z) : bool :=
  if negb (scale self =? icon_scale)%Z then false
  else match directory_type self with
       | Fixed => (size self =? icon_size)%Z
       | Scalable => (min_size self <=? icon_size)%Z && (icon_size <=? max_size self)%Z
       | Threshold => (abs_diff (size self) icon_size <=? threshold self)%Z
       end.

(** ** Byte strings *)

Definition byte_of (c : ascii) : nat := nat_of_ascii c.

(** [core::str::from_utf8] validity (well-formed UTF-8, Unicode 3.9 table). *)
Definition cont_byte (b : nat) : bool := Nat.leb 128 b && Nat.leb b 191.
Definition in_range (lo hi b : nat) : bool := Nat.leb lo b && Nat.leb b hi.

Fixpoint utf8_valid (l : list nat) : bool :=
  match l with
  | [] => true
  | b :: r =>
      if Nat.ltb b 128 then utf8_valid r
      else if in_range 194 223 b then
        match r with c1 :: r' => cont_byte c1 && utf8_valid r' | _ => false end
      else if in_range 224 239 b then
        match r with
        | c1 :: c2 :: r' =>
            (if Nat.eqb b 224 then in_range 160 191 c1
             else if Nat.eqb b 237 then in_range 128 159 c1
             else cont_byte c1) && cont_byte c2 && utf8_valid r'
        | _ => false
        end
      else if in_range 240 244 b then
        match r with
        | c1 :: c2 :: c3 :: r' =>
            (if Nat.eqb b 240 then in_range 144 191 c1
             else if Nat.eqb b 244 then in_range 128 143 c1
             else cont_byte c1) && cont_byte c2 && cont_byte c3 && utf8_valid r'
        | _ => false
        end
      else false
  end.

Definition bytes (s : string) : list nat := map byte_of (list_ascii_of_string s).

(** [OsStr::to_str] and [str::from_utf8]: [None] on invalid UTF-8. *)
Definition to_str (s : string) : option string :=
  if utf8_valid (bytes s) then Some s else None.

(** [u8::to_ascii_lowercase] *)
Definition to_ascii_lowercase (c : ascii) : ascii :=
  if in_range 65 90 (byte_of c) then ascii_of_nat (byte_of c + 32) else c.

(** [str::eq_ignore_ascii_case]: equal lengths and bytewise equal after
    ASCII lowercasing. *)
Fixpoint eq_ignore_ascii_case (a b : string) : bool :=
  match a, b with
  | EmptyString, EmptyString => true
  | String x a', String y b' =>
      Ascii.eqb (to_ascii_lowercase x) (to_ascii_lowercase y) && eq_ignore_ascii_case a' b'
  | _, _ => false
  end.

(** [str::split(c)]: always at least one piece. *)
Fixpoint split_on (c : ascii) (s : string) : list string :=
  match s with
  | EmptyString => [EmptyString]
  | String x r =>
      if Ascii.eqb x c then EmptyString :: split_on c r
      else match split_on c r with
           | p :: ps => String x p :: ps
           | [] => [String x EmptyString]
           end
  end.

(** ** Unix paths ([std::path]) *)

(** Names of the components of a path, as [Path::components] yields them:
    empty pieces (repeated or trailing separators) and [.] are skipped. *)
Definition component_names (p : string) : list string :=
  filter (fun c => negb (String.eqb c "") && negb (String.eqb c "."))
         (split_on "/" p).

Fixpoint last_opt {A} (l : list A) : option A :=
  match l with [] => None | [x] => Some x | _ :: r => last_opt r end.

(** [Path::file_name]: the last component, if it is a normal one. *)
Definition file_name (p : string) : option string :=
  match last_opt (component_names p) with
  | Some c => if String.eqb c ".." then None else Some c
  | None => None
  end.

(** Split at the last [.]: [rsplitn(2, '.')]. *)
Fixpoint rsplit_dot (s : string) : option (string * string) :=
  match s with
  | EmptyString => None
  | String c r =>
      match rsplit_dot r with
      | Some (b, a) => Some (String c b, a)
      | None => if Ascii.eqb c "." then Some (EmptyString, r) else None
      end
  end.

(** [std::path::rsplit_file_at_dot] *)
Definition rsplit_file_at_dot (file : string) : option string * option string :=
  if String.eqb file ".." then (Some file, None)
  else match rsplit_dot file with
       | None => (None, Some file)
       | Some (before, after) =>
           if String.eqb before "" then (Some file, None) else (Some before, Some after)
       end.

(** [Path::extension]: [before.and(after)] *)
Definition extension (p : string) : option string :=
  match file_name p with
  | None => None
  | Some f => let (before, after) := rsplit_file_at_dot f in
              match before with Some _ => after | None => None end
  end.

(** [Path::file_stem]: [before.or(after)] *)
Definition file_stem (p : string) : option string :=
  match file_name p with
  | None => None
  | Some f => let (before, after) := rsplit_file_at_dot f in
              match before with Some b => Some b | None => after end
  end.

(** [PathBuf::join] on Unix: an absolute argument replaces the base,
    otherwise a separator is inserted unless the base is empty or already
    ends with one. *)
Definition join (base p : string) : string :=
  match p with
  | String "/" _ => p
  | _ =>
      match last_opt (list_ascii_of_string base) with
      | None => p
      | Some "/"%char => base ++ p
      | Some _ => base ++ "/" ++ p
      end
  end.

(** ** IconFile and FileType (icon.rs) *)

Inductive FileType := Png | Xmp | Svg.

Module IconFile.
Record t := { path : string; name : string; file_type : FileType }.
End IconFile.

(** [FileType::from_path_ext] *)
Definition from_path_ext (path : string) : option FileType :=
  match extension path with
  | None => None
  | Some ext =>
      match to_str ext with
      | None => None
      | Some ext =>
          if eq_ignore_ascii_case ext "png" then Some Png
          else if eq_ignore_ascii_case ext "xmp" then Some Xmp
          else if eq_ignore_ascii_case ext "svg" then Some Svg
          else None
      end
  end.

(** [IconFile::from_path] *)
Definition from_path (path : string) : option IconFile.t :=
  match from_path_ext path with
  | None => None
  | Some ft =>
      match file_stem path with
      | None => None
      | Some nm => Some {| IconFile.path := path; IconFile.name := nm; IconFile.file_type := ft |}
      end
  end.

(** ** ThemeIndex and ThemeInfo (theme.rs) *)

Record ThemeIndex := {
  name : string;
  comment : string;
  inherits : list string;
  directories : list DirectoryIndex;
  hidden : bool;
  example : option string
}.

(** [ThemeInfo] of theme.rs; search_dir.rs calls it [ThemeDescriptor]. *)
Record ThemeInfo := {
  internal_name : string;
  base_dirs : list string;
  index_location : string;
  index : ThemeIndex
}.

(** ** Iteration helpers *)

(** [Iterator::find_map] *)
Fixpoint find_map {A B} (f : A -> option B) (l : list A) : option B :=
  match l with
  | [] => None
  | x :: r => match f x with Some y => Some y | None => find_map f r end
  end.

(** [Iterator::find_map] with a closure that may panic. *)
Fixpoint find_mapM {A B} (f : A -> Outcome (option B)) (l : list A) : Outcome (option B) :=
  match l with
  | [] => Ret None
  | x :: r => y <-- f x ;; match y with Some b => Ret (Some b) | None => find_mapM f r end
  end.

(** A [for] loop over [l] threading the loop state [a]; a panic aborts it. *)
Fixpoint foldM {A B} (f : A -> B -> Outcome A) (l : list B) (a : A) : Outcome A :=
  match l with
  | [] => Ret a
  | x :: r => a' <-- f a x ;; foldM f r a'
  end.

(** ** Theme (theme.rs) *)

Module Theme.

Inductive t := Mk (info : ThemeInfo) (inherits_from : list t).

Definition info (self : t) : ThemeInfo := let (i, _) := self in i.
Definition inherits_from (self : t) : list t := let (_, p) := self in p.

(** [const EXTENSIONS: [&str; 3] = ["png", "xmp", "svg"]] *)
Definition EXTENSIONS : list string := ["png"; "xmp"; "svg"].

Definition file_names (icon_name : string) : list string :=
  map (fun ext => icon_name ++ "." ++ ext) EXTENSIONS.

Section Lookup.
Variable path_exists : string -> bool.
Variable prof : Profile.

(** [base_dir.join(sub_dir.directory_name).join(file_name)] *)
Definition candidate (base_dir : string) (sub_dir : DirectoryIndex) (file_name : string) : string :=
  join (join base_dir (directory_name sub_dir)) file_name.

(** [if path.exists() { if let Some(file) = IconFile::from_path(&path) ... }] *)
Definition probe (path : string) : option IconFile.t :=
  if path_exists path then from_path path else None.

(** Pass 1 of [find_icon_here]: the first hit over base dirs, then the
    directories for which [matches_size] holds, then the file names. *)
Definition exact_pass (self : t) (icon_name : string) (size scale : Z) : option IconFile.t :=
  let sub_dirs := directories (index (info self)) in
  let exact_sub_dirs := filter (fun sd => matches_size sd size scale) sub_dirs in
  find_map (fun base_dir =>
    find_map (fun sub_dir =>
      find_map (fun file_name => probe (candidate base_dir sub_dir file_name))
               (file_names icon_name))
      exact_sub_dirs)
    (base_dirs (info self)).

(** Body of the innermost loop of pass 2, on the state [(min_dist, best_icon)]. *)
Definition nearest_file (distance : Z) (st : Z * option IconFile.t) (path : string)
    : Z * option IconFile.t :=
  if path_exists path then
    match from_path path with
    | Some file => (distance, Some file)
    | None => st
    end
  else st.

(** Body of the loop over [sub_dirs] of pass 2. *)
Definition nearest_dir (icon_name : string) (size scale : Z) (base_dir : string)
    (st : Z * option IconFile.t) (sub_dir : DirectoryIndex) : Outcome (Z * option IconFile.t) :=
  distance <-- size_distance prof sub_dir size scale ;;
  if (distance <? fst st)%Z then
    Ret (fold_left (fun st' file_name =>
                      nearest_file distance st' (candidate base_dir sub_dir file_name))
                   (file_names icon_name) st)
  else Ret st.

(** Pass 2 of [find_icon_here], starting from [(u32::MAX, None)]. *)
Definition nearest_pass (self : t) (icon_name : string) (size scale : Z)
    : Outcome (option IconFile.t) :=
  let sub_dirs := directories (index (info self)) in
  st <-- foldM (fun st base_dir => foldM (nearest_dir icon_name size scale base_dir) sub_dirs st)
               (base_dirs (info self)) (u32_max, None) ;;
  Ret (snd st).

(** [Theme::find_icon_here] *)
Definition find_icon_here (self : t) (icon_name : string) (size scale : Z)
    : Outcome (option IconFile.t) :=
  match exact_pass self icon_name size scale with
  | Some file => Ret (Some file)
  | None => nearest_pass self icon_name size scale
  end.

(** [Theme::find_icon]: the theme itself, then [inherits_from] in order. *)
Definition find_icon (self : t) (icon_name : string) (size scale : Z)
    : Outcome (option IconFile.t) :=
  r <-- find_icon_here self icon_name size scale ;;
  match r with
  | Some f => Ret (Some f)
  | None => find_mapM (fun theme => find_icon_here theme icon_name size scale)
                      (inherits_from self)
  end.

End Lookup.
End Theme.

(** ** Icons (theme.rs) *)

Module Icons.

Record t := {
  standalone_icons : list IconFile.t;
  themes : list (string * Theme.t)  (** a [HashMap]: keys are distinct *)
}.

(** [HashMap::get] *)
Fixpoint lookup {V} (k : string) (m : list (string * V)) : option V :=
  match m with
  | [] => None
  | (k', v) :: r => if String.eqb k k' then Some v else lookup k r
  end.

(** [Icons::theme] *)
Definition theme (self : t) (theme_name : string) : option Theme.t :=
  lookup theme_name (themes self).

(** [self.theme(theme).or_else(|| self.theme("hicolor"))] *)
Definition chosen_theme (self : t) (theme_name : string) : option Theme.t :=
  match theme self theme_name with
  | Some th => Some th
  | None => theme self "hicolor"
  end.

(** [Icons::find_standalone_icon] *)
Definition find_standalone_icon (self : t) (icon_name : string) : option IconFile.t :=
  find (fun ico => match file_stem (IconFile.path ico) with
                   | Some s => String.eqb s icon_name
                   | None => false
                   end)
       (standalone_icons self).

Section Lookup.
Variable path_exists : string -> bool.
Variable prof : Profile.

(** [Icons::find_icon] *)
Definition find_icon (self : t) (icon_name : string) (size scale : Z) (theme_name : string)
    : Outcome (option IconFile.t) :=
  match chosen_theme self theme_name with
  | None => Ret None
  | Some th =>
      r <-- Theme.find_icon path_exists prof th icon_name size scale ;;
      match r with
      | Some f => Ret (Some f)
      | None => Ret (find_standalone_icon self icon_name)
      end
  end.

End Lookup.
End Icons.

(** ** Parsing [index.theme] (theme.rs)

    The INI tokenizer [freedesktop_entry_parser::low_level::parse_entry] is an
    external collaborator: [ThemeIndex::parse] is embedded from the point
    where it consumes the tokenizer's iterator of sections, each one either a
    section or a tokenizer error. *)

Inductive result (A E : Type) : Type :=
| Ok (a : A)
| Err (e : E).
Arguments Ok {A E} a.
Arguments Err {A E} e.

Notation "'let?' x ':=' m 'in' k" :=
  (match m with Ok x => k | Err e => Err e end)
  (at level 200, x name, m at level 100, k at level 200).

Module AttrBytes.
Record t := { name : string; param : option string; value : string }.
End AttrBytes.

Module SectionBytes.
Record t := { title : string; attrs : list AttrBytes.t }.
End SectionBytes.

(** The tokenizer's own error, kept opaque. *)
Inductive EntryParseError := EntryParseError_ (msg : string).

Inductive ThemeParseError :=
| NotAnIconTheme
| MissingRequiredAttribute (attr : string)
| NotUtf8
| ParseBoolError
| ParseNumError
| InvalidDirectoryType
| ParseError (e : EntryParseError).

(** [find_attr]: the first attribute with that name and no [param]. *)
Definition find_attr (section : SectionBytes.t) (name : string)
    : result (option string) ThemeParseError :=
  match find (fun attr => String.eqb (AttrBytes.name attr) name
                          && match AttrBytes.param attr with None => true | Some _ => false end)
             (SectionBytes.attrs section) with
  | None => Ok None
  | Some attr => match to_str (AttrBytes.value attr) with
                 | Some s => Ok (Some s)
                 | None => Err NotUtf8
                 end
  end.

(** [find_attr_req] *)
Definition find_attr_req (section : SectionBytes.t) (name : string)
    : result string ThemeParseError :=
  let? o := find_attr section name in
  match o with
  | None => Err (MissingRequiredAttribute name)
  | Some s => Ok s
  end.

Definition digit_value (c : ascii) : option Z :=
  if in_range 48 57 (byte_of c) then Some (Z.of_nat (byte_of c - 48)) else None.

Fixpoint digits_value (s : string) (acc : Z) : option Z :=
  match s with
  | EmptyString => Some acc
  | String c r => match digit_value c with
                  | Some d => digits_value r (acc * 10 + d)%Z
                  | None => None
                  end
  end.

(** [<u32 as FromStr>::from_str]: an optional [+], then at least one
    decimal digit, and a value that fits in 32 bits. *)
Definition parse_u32 (s : string) : result Z ThemeParseError :=
  let digits := match s with
                | String "+" r => r
                | _ => s
                end in
  match s, digits with
  | EmptyString, _ => Err ParseNumError
  | _, EmptyString => Err ParseNumError
  | _, _ => match digits_value digits 0 with
            | Some v => if (v <=? u32_max)%Z then Ok v else Err ParseNumError
            | None => Err ParseNumError
            end
  end.

(** [<bool as FromStr>::from_str] *)
Definition parse_bool (s : string) : result bool ThemeParseError :=
  if String.eqb s "true" then Ok true
  else if String.eqb s "false" then Ok false
  else Err ParseBoolError.

(** [.map(|s| s.parse()).transpose()?.unwrap_or(default)] *)
Definition parse_u32_or (o : option string) (default : Z) : result Z ThemeParseError :=
  match o with None => Ok default | Some s => parse_u32 s end.

(** [<DirectoryType as TryFrom<&str>>::try_from] *)
Definition directory_type_try_from (s : string) : option DirectoryType :=
  if String.eqb s "Fixed" then Some Fixed
  else if String.eqb s "Scalable" then Some Scalable
  else if String.eqb s "Threshold" then Some Threshold
  else None.

(** [DirectoryIndex::parse] *)
Definition parse_directory_index (section : SectionBytes.t)
    : result DirectoryIndex ThemeParseError :=
  let? dir_name := match to_str (SectionBytes.title section) with
                   | Some s => Ok s | None => Err NotUtf8 end in
  let? size_s := find_attr_req section "Size" in
  let? size := parse_u32 size_s in
  let? scale_o := find_attr section "Scale" in
  let? scale := parse_u32_or scale_o 1 in
  let? context := find_attr section "Context" in
  let? type_o := find_attr section "Type" in
  let? directory_type := match type_o with
                         | None => Ok Threshold
                         | Some s => match directory_type_try_from s with
                                     | Some d => Ok d
                                     | None => Err InvalidDirectoryType
                                     end
                         end in
  let? max_o := find_attr section "MaxSize" in
  let? max_size := parse_u32_or max_o size in
  let? min_o := find_attr section "MinSize" in
  let? min_size := parse_u32_or min_o size in
  let? threshold_o := find_attr section "Threshold" in
  let? threshold := parse_u32_or threshold_o 2 in
  Ok {| directory_name := dir_name; is_scaled_dir := negb (scale =? 1)%Z;
        size := size; scale := scale; context := context;
        directory_type := directory_type; max_size := max_size;
        min_size := min_size; threshold := threshold |}.

Definition set_scaled (d : DirectoryIndex) : DirectoryIndex :=
  {| directory_name := directory_name d; is_scaled_dir := true; size := size d;
     scale := scale d; context := context d; directory_type := directory_type d;
     max_size := max_size d; min_size := min_size d; threshold := threshold d |}.

(** [.filter_map(Result::ok)] *)
Fixpoint filter_ok {A E} (l : list (result A E)) : list A :=
  match l with
  | [] => []
  | Ok a :: r => a :: filter_ok r
  | Err _ :: r => filter_ok r
  end.

(** The [filter_map] over the remaining sections, collected into a
    [Result<Vec<_>, _>] (the first error is returned). *)
Fixpoint collect_directories (directories : list string)
    (scaled_directories : option (list string)) (sections : list SectionBytes.t)
    : result (list DirectoryIndex) ThemeParseError :=
  match sections with
  | [] => Ok []
  | section :: r =>
      match to_str (SectionBytes.title section) with
      | None => collect_directories directories scaled_directories r
      | Some title =>
          let is_scaled_dir := match scaled_directories with
                               | Some d => existsb (String.eqb title) d
                               | None => false
                               end in
          if negb (existsb (String.eqb title) directories) && negb is_scaled_dir then
            collect_directories directories scaled_directories r
          else
            let? index := parse_directory_index section in
            let index := if is_scaled_dir then set_scaled index else index in
            let? rest := collect_directories directories scaled_directories r in
            Ok (index :: rest)
      end
  end.

(** [ThemeIndex::parse], on the tokenizer's sections. *)
Definition parse_theme_index (entry : list (result SectionBytes.t EntryParseError))
    : result ThemeIndex ThemeParseError :=
  match entry with
  | [] => Err NotAnIconTheme
  | Err e :: _ => Err (ParseError e)
  | Ok icon_theme_section :: rest =>
      let? name := find_attr_req icon_theme_section "Name" in
      let? comment_o := find_attr icon_theme_section "Comment" in
      let comment := match comment_o with Some c => c | None => "" end in
      let? inherits_o := find_attr icon_theme_section "Inherits" in
      let inherits := match inherits_o with Some s => split_on "," s | None => [] end in
      let? directories_s := find_attr_req icon_theme_section "Directories" in
      let directories := split_on "," directories_s in
      let? scaled_o := find_attr icon_theme_section "ScaledDirectories" in
      let scaled_directories := option_map (split_on ",") scaled_o in
      let? hidden_o := find_attr icon_theme_section "Hidden" in
      let? hidden := match hidden_o with
                     | Some s => parse_bool s
                     | None => Ok false
                     end in
      let? example := find_attr icon_theme_section "Example" in
      let? dirs := collect_directories directories scaled_directories (filter_ok rest) in
      Ok {| name := name; comment := comment; inherits := inherits;
            directories := dirs; hidden := hidden; example := example |}
  end.

(** ** SearchDirectories (search_dir.rs) *)

Module SearchDirectories.

Record t := { dirs : list string }.

(** [Vec::append(&mut self, other: &mut Vec)]: moves every element of
    [other] to the end of [self], leaving [other] empty.  Returns the new
    [(self, other)]. *)
Definition vec_append {A} (self other : list A) : list A * list A := ((self ++ other)%list, []).

(** [impl From<I> for SearchDirectories] *)
Definition from (value : list string) : t := {| dirs := value |}.

(** [SearchDirectories::append]:
    [let mut extra_dirs = ...collect(); self.dirs.append(&mut extra_dirs); extra_dirs.into()] *)
Definition append (self : t) (directories : list string) : t :=
  let extra_dirs := directories in
  let (self_dirs, extra_dirs) := vec_append (dirs self) extra_dirs in
  let _ := self_dirs in
  from extra_dirs.

End SearchDirectories.

(** ** Inheritance chains of [IconLocations::resolve_only] (search_dir.rs)

    After [collect_themes] has filled the [HashMap] of descriptors and the
    missing ones have been dropped, [theme_names] and [theme_descriptions]
    are the two halves of the surviving map (in the map's iteration order,
    every description being [Some]).  The chains are computed from these
    two vectors only, so they are the inputs of the embedding. *)

(** [Iterator::position] *)
Fixpoint position {A} (p : A -> bool) (l : list A) : option nat :=
  match l with
  | [] => None
  | x :: r => if p x then Some 0 else option_map S (position p r)
  end.

Definition contains (chain : list nat) (i : nat) : bool := existsb (Nat.eqb i) chain.

Section Chains.
Variable theme_names : list string.
Variable theme_descriptions : list (option ThemeInfo).

Definition number_of_themes : nat := length theme_names.

(** [theme_names.iter().position(|name| name == "hicolor")] *)
Definition hicolor_idx : option nat := position (String.eqb "hicolor") theme_names.

(** Body of [for parent in &description.index.inherits]. *)
Definition push_parent (chain : list nat) (parent : string) : list nat :=
  match position (fun name => String.eqb name parent) theme_names with
  | None => chain
  | Some parent_idx => if contains chain parent_idx then chain else (chain ++ [parent_idx])%list
  end.

(** One iteration of the [while let] loop, on node [node_idx]. *)
Definition visit (chain : list nat) (node_idx : nat) : list nat :=
  match nth_error theme_descriptions node_idx with
  | Some (Some description) => fold_left push_parent (inherits (index description)) chain
  | _ => chain
  end.

(** [while let Some(node_idx) = chain.get(cursor).copied() { cursor += 1; ... }];
    [fuel] bounds the number of iterations (see [bfs_fuel_enough]). *)
Fixpoint bfs (fuel cursor : nat) (chain : list nat) : list nat :=
  match fuel with
  | O => chain
  | S fuel' =>
      match nth_error chain cursor with
      | None => chain
      | Some node_idx => bfs fuel' (S cursor) (visit chain node_idx)
      end
  end.

(** The chain after the BFS, from [Vec::from([theme_idx])] and cursor 0. *)
Definition bfs_chain (theme_idx : nat) : list nat := bfs (S number_of_themes) 0 [theme_idx].

(** The chain pushed to [theme_chains]: [hicolor] appended when absent. *)
Definition theme_chain (theme_idx : nat) : list nat :=
  let chain := bfs_chain theme_idx in
  match hicolor_idx with
  | Some h => if contains chain h then chain else (chain ++ [h])%list
  | None => chain
  end.

(** [theme_chains], indexed by theme index. *)
Definition theme_chains : list (list nat) := map theme_chain (seq 0 number_of_themes).

End Chains.

(** ** [FileType::ext] and [FileType::types] (icon.rs) *)

Module FileType.

(** [FileType::ext] *)
Definition ext (self : FileType) : string :=
  match self with Png => "png" | Xmp => "xmp" | Svg => "svg" end.

(** [FileType::types] *)
Definition types : list FileType := [Png; Xmp; Svg].

End FileType.

(** [str::to_ascii_lowercase], byte by byte. *)
Fixpoint to_ascii_lowercase_str (s : string) : string :=
  match s with
  | EmptyString => EmptyString
  | String c r => String (to_ascii_lowercase c) (to_ascii_lowercase_str r)
  end.

(** ** Building the themes in [IconLocations::resolve_only] (search_dir.rs) *)

(** [v[i]] on a [Vec]: panics out of bounds. *)
Definition vec_get {A} (v : list A) (i : nat) : Outcome A :=
  match nth_error v i with Some x => Ret x | None => Panic end.

Fixpoint list_set {A} (v : list A) (i : nat) (x : A) : list A :=
  match v, i with
  | [], _ => []
  | _ :: r, O => x :: r
  | y :: r, S i' => y :: list_set r i' x
  end.

(** [v[i] = x] on a [Vec]: panics out of bounds. *)
Definition vec_set {A} (v : list A) (i : nat) (x : A) : Outcome (list A) :=
  if Nat.ltb i (length v) then Ret (list_set v i x) else Panic.

(** [Option::unwrap] *)
Definition unwrap {A} (o : option A) : Outcome A :=
  match o with Some x => Ret x | None => Panic end.

(** [.map(f).collect::<Vec<_>>()] with a closure that may panic. *)
Fixpoint mapM {A B} (f : A -> Outcome B) (l : list A) : Outcome (list B) :=
  match l with
  | [] => Ret []
  | x :: r => y <-- f x ;; ys <-- mapM f r ;; Ret (y :: ys)
  end.

Section Build.
Variable theme_names : list string.
Variable theme_descriptions : list (option ThemeInfo).

(** Body of [for theme_idx in chain.iter().copied().rev()], on the state
    [(theme_descriptions, full_themes)]: [take] the description, and unless
    it was already taken build the theme from the [full_themes] of the rest
    of its own chain ([.skip(1)]), each one [unwrap]ped. *)
Definition build_theme (st : list (option ThemeInfo) * list (option Theme.t)) (theme_idx : nat)
    : Outcome (list (option ThemeInfo) * list (option Theme.t)) :=
  let (descriptions, full_themes) := st in
  theme_desc <-- vec_get descriptions theme_idx ;;
  let descriptions := list_set descriptions theme_idx None in
  match theme_desc with
  | None => Ret (descriptions, full_themes)
  | Some theme_desc =>
      parents <-- vec_get (theme_chains theme_names theme_descriptions) theme_idx ;;
      parents <-- mapM (fun parent_idx => o <-- vec_get full_themes parent_idx ;; unwrap o)
                       (tl parents) ;;
      full_themes <-- vec_set full_themes theme_idx (Some (Theme.Mk theme_desc parents)) ;;
      Ret (descriptions, full_themes)
  end.

(** The value of [resolve_only]: [full_themes] starts as
    [vec![None; number_of_themes]], is filled by the loops over
    [theme_chains], and ends as [full_themes.into_iter().map(Option::unwrap)]. *)
Definition full_themes : Outcome (list Theme.t) :=
  st <-- foldM (fun st chain => foldM build_theme (rev chain) st)
               (theme_chains theme_names theme_descriptions)
               (theme_descriptions, repeat None (number_of_themes theme_names)) ;;
  mapM unwrap (snd st).

End Build.

(** ** Icon locations (search_dir.rs, theme.rs) *)

(** [std::fs::FileType] of a directory entry, as [DirEntry::file_type]
    reports it: symbolic links are not followed. *)
Inductive FileKind := RegularFile | Directory | Symlink | OtherKind.

(** [FileType::is_file] *)
Definition is_file (k : FileKind) : bool :=
  match k with RegularFile => true | _ => false end.

Record DirEntry := {
  entry_file_name : string;          (** [DirEntry::file_name] *)
  entry_file_type : option FileKind  (** [DirEntry::file_type], [None] when it fails *)
}.

(** [std::io::Error]: an OS error, or [io::Error::other] around a
    [ThemeParseError]. *)
Inductive IoError := IoOs (code : Z) | IoOther (e : ThemeParseError).

(** [map.entry(k).or_default().push(v)] on a [HashMap<OsString, Vec<PathBuf>>],
    as an association list in order of first insertion. *)
Fixpoint push_entry (k v : string) (m : list (string * list string)) : list (string * list string) :=
  match m with
  | [] => [(k, [v])]
  | (k', vs) :: r =>
      if String.eqb k k' then (k', (vs ++ [v])%list) :: r else (k', vs) :: push_entry k v r
  end.

(** [OsStr::to_string_lossy]: every maximal ill-formed UTF-8 subsequence
    becomes U+FFFD (bytes EF BF BD). *)
Definition replacement_char : list nat := [239; 191; 189].

Definition first_cont3 (b c1 : nat) : bool :=
  if Nat.eqb b 224 then in_range 160 191 c1
  else if Nat.eqb b 237 then in_range 128 159 c1
  else cont_byte c1.

Definition first_cont4 (b c1 : nat) : bool :=
  if Nat.eqb b 240 then in_range 144 191 c1
  else if Nat.eqb b 244 then in_range 128 143 c1
  else cont_byte c1.

Fixpoint lossy (l : list nat) : list nat :=
  match l with
  | [] => []
  | b :: r =>
      if Nat.ltb b 128 then b :: lossy r
      else if in_range 194 223 b then
        match r with
        | c1 :: r1 => if cont_byte c1 then b :: c1 :: lossy r1 else (replacement_char ++ lossy r)%list
        | [] => replacement_char
        end
      else if in_range 224 239 b then
        match r with
        | c1 :: r1 =>
            if first_cont3 b c1 then
              match r1 with
              | c2 :: r2 =>
                  if cont_byte c2 then b :: c1 :: c2 :: lossy r2
                  else (replacement_char ++ lossy r1)%list
              | [] => replacement_char
              end
            else (replacement_char ++ lossy r)%list
        | [] => replacement_char
        end
      else if in_range 240 244 b then
        match r with
        | c1 :: r1 =>
            if first_cont4 b c1 then
              match r1 with
              | c2 :: r2 =>
                  if cont_byte c2 then
                    match r2 with
                    | c3 :: r3 =>
                        if cont_byte c3 then b :: c1 :: c2 :: c3 :: lossy r3
                        else (replacement_char ++ lossy r2)%list
                    | [] => replacement_char
                    end
                  else (replacement_char ++ lossy r1)%list
              | [] => replacement_char
              end
            else (replacement_char ++ lossy r)%list
        | [] => replacement_char
        end
      else (replacement_char ++ lossy r)%list
  end.

Definition to_string_lossy (s : string) : string :=
  string_of_list_ascii (map ascii_of_nat (lossy (bytes s))).

Section ThemeFiles.
Variable path_exists : string -> bool.
(** [std::fs::read] followed by the tokenizer: the sections of a file. *)
Variable read_sections : string -> result (list (result SectionBytes.t EntryParseError)) IoError.

(** [ThemeIndex::parse_from_file] *)
Definition parse_from_file (path : string) : result ThemeIndex IoError :=
  let? entry := read_sections path in
  match parse_theme_index entry with
  | Ok index => Ok index
  | Err e => Err (IoOther e)
  end.

(** [ThemeInfo::new_from_folders] *)
Definition new_from_folders (internal_name : string) (folders : list string)
    : result ThemeInfo IoError :=
  match find path_exists (map (fun f => join f "index.theme") folders) with
  | None => Err (IoOther NotAnIconTheme)
  | Some index_location =>
      let? index := parse_from_file index_location in
      Ok {| internal_name := internal_name; base_dirs := folders;
            index_location := index_location; index := index |}
  end.

End ThemeFiles.

Module IconLocations.

Record t := {
  standalone_icons : list IconFile.t;
  themes_directories : list (string * list string)  (** a [HashMap] *)
}.

Section Discovery.
(** [Path::read_dir]: [None] when it fails, otherwise the entries in the
    order [ReadDir] yields them, [None] for an entry that is an error. *)
Variable read_dir : string -> option (list (option DirEntry)).

(** [.flat_map(|base_dir| base_dir.read_dir()).flatten().flatten()
    .filter_map(|entry| Some((entry.file_type().ok()?, entry)))], each entry
    as its file type, its [file_name] and its [path] ([base_dir.join(file_name)]). *)
Definition typed_entries (dirs : list string) : list (FileKind * string * string) :=
  flat_map (fun base_dir =>
    match read_dir base_dir with
    | None => []
    | Some entries =>
        flat_map (fun e =>
          match e with
          | Some entry =>
              match entry_file_type entry with
              | Some ft => [(ft, entry_file_name entry, join base_dir (entry_file_name entry))]
              | None => []
              end
          | None => []
          end) entries
    end) dirs.

(** [SearchDirectories::find_icon_locations] *)
Definition find_icon_locations (self : SearchDirectories.t) : t :=
  let entries := typed_entries (SearchDirectories.dirs self) in
  let files := filter (fun e => match e with (ft, _, _) => is_file ft end) entries in
  let dirs := filter (fun e => match e with (ft, _, _) => negb (is_file ft) end) entries in
  let files := flat_map (fun e => match e with
                                  | (_, _, p) => match from_path p with Some f => [f] | None => [] end
                                  end) files in
  let themes_directories :=
    fold_left (fun m e => match e with (_, theme_name, p) => push_entry theme_name p m end) dirs [] in
  {| standalone_icons := files; themes_directories := themes_directories |}.

End Discovery.

Section Descriptions.
Variable path_exists : string -> bool.
Variable read_sections : string -> result (list (result SectionBytes.t EntryParseError)) IoError.

(** [IconLocations::theme_description] *)
Definition theme_description (self : t) (internal_name : string) : result ThemeInfo IoError :=
  match Icons.lookup internal_name (themes_directories self) with
  | None => Err (IoOther NotAnIconTheme)
  | Some theme => new_from_folders path_exists read_sections (to_string_lossy internal_name) theme
  end.

End Descriptions.

(** [IconLocations::standalone_icon] *)
Definition standalone_icon (self : t) (icon_name : string) : option IconFile.t :=
  find (fun icon => match file_stem (IconFile.path icon) with
                    | Some s => String.eqb s icon_name
                    | None => false
                    end)
       (standalone_icons self).

End IconLocations.

(** ** Theme contents used by the lookup statements *)

(** Some probed file [base_dir/sub_dir/icon_name.ext] of the theme (over all
    its base dirs, all its directories and the three file names) exists and
    is a recognised icon file: the theme itself holds an icon [icon_name]. *)
Definition has_icon_here (path_exists : string -> bool) (th : Theme.t) (icon_name : string) : bool :=
  existsb (fun base_dir =>
    existsb (fun sub_dir =>
      existsb (fun file_name =>
        match Theme.probe path_exists (Theme.candidate base_dir sub_dir file_name) with
        | Some _ => true
        | None => false
        end)
        (Theme.file_names icon_name))
      (directories (index (Theme.info th))))
    (base_dirs (Theme.info th)).

(** The theme with the parents of its parents removed. *)
Definition strip_grandparents (th : Theme.t) : Theme.t :=
  Theme.Mk (Theme.info th)
           (map (fun p => Theme.Mk (Theme.info p) []) (Theme.inherits_from th)).

(** [o] returns a value satisfying [P], or it panics and the build is a
    debug one. *)
Definition ok_or_debug_panic {A} (prof : Profile) (o : Outcome A) (P : A -> Prop) : Prop :=
  match o with Ret a => P a | Panic => prof = Debug end.

(** Case analysis on the [let?] steps of a successful parse. *)
Ltac inv_lets H :=
  repeat match type of H with
  | context [match ?x with Ok _ => _ | Err _ => _ end] =>
      let E := fresh "E" in
      destruct x eqn:E; cbv beta iota in H; [|discriminate H]
  end.

(** ** Predicates of the properties below *)

(** Every byte of [s] is ASCII. *)
Definition ascii_only (s : string) : Prop := Forall (fun c => byte_of c < 128) (list_ascii_of_string s).

(** [f] is what [Theme::probe] finds at [base_dir/sub_dir/file_name], for a
    base dir [b] of the theme, a directory [sd] of its index and one of the
    probed file names [fn] of [icon_name]. *)
Definition theme_hit (path_exists : string -> bool) (th : Theme.t) (icon_name : string)
    (b : string) (sd : DirectoryIndex) (fn : string) (f : IconFile.t) : Prop :=
  In b (base_dirs (Theme.info th)) /\ In sd (directories (index (Theme.info th))) /\
  In fn (Theme.file_names icon_name) /\
  Theme.probe path_exists (Theme.candidate b sd fn) = Some f.

Section NearestInv.
Variable path_exists : string -> bool.
Variable prof : Profile.
Variable icon_name : string.
Variables s k : Z.

(** The loop state [(min_distance, closest)] of the nearest pass after the
    candidates of the directories [Q]: the distance is the least one seen,
    [u32::MAX] as long as nothing was found. *)
Definition nearest_inv (Q : string -> DirectoryIndex -> Prop) (st : Z * option IconFile.t) : Prop :=
  (fst st <= u32_max)%Z /\
  (snd st = None -> fst st = u32_max) /\
  (forall f, snd st = Some f -> (fst st < u32_max)%Z /\
     exists b sd fn, Q b sd /\ In fn (Theme.file_names icon_name) /\
       Theme.probe path_exists (Theme.candidate b sd fn) = Some f /\
       size_distance prof sd s k = Ret (fst st)) /\
  (forall b sd fn f d, Q b sd -> In fn (Theme.file_names icon_name) ->
     Theme.probe path_exists (Theme.candidate b sd fn) = Some f ->
     size_distance prof sd s k = Ret d -> (fst st <= d)%Z).
End NearestInv.

(** [t] is listed in [ScaledDirectories] (split on commas). *)
Definition listed_scaled (scaled : option (list string)) (t : string) : bool :=
  match scaled with Some d => existsb (String.eqb t) d | None => false end.

(** Every parent of the theme [x] that survives is in [chain]. *)
Definition parents_in (theme_names : list string) (theme_descriptions : list (option ThemeInfo))
    (x : nat) (chain : list nat) : Prop :=
  forall d parent j, nth_error theme_descriptions x = Some (Some d) ->
    In parent (inherits (index d)) ->
    position (fun name => String.eqb name parent) theme_names = Some j -> In j chain.

(** A theme built at index [i]: its description is the [i]-th one, and its
    parents are the themes of the rest of the [i]-th chain. *)
Definition built_ok (theme_names : list string) (theme_descriptions : list (option ThemeInfo))
    (i : nat) (t : Theme.t) : Prop :=
  nth_error theme_descriptions i = Some (Some (Theme.info t)) /\
  Forall2 (fun p parent => nth_error theme_descriptions p = Some (Some (Theme.info parent)))
          (tl (theme_chain theme_names theme_descriptions i)) (Theme.inherits_from t).

(** The state [(theme_descriptions, full_themes)] of the build loops:
    [full_themes] keeps its length, a description still there is the original
    one, and every theme built so far is [built_ok]. *)
Definition build_inv (theme_names : list string) (theme_descriptions : list (option ThemeInfo))
    (st : list (option ThemeInfo) * list (option Theme.t)) : Prop :=
  length (snd st) = number_of_themes theme_names /\
  (forall i d, nth_error (fst st) i = Some (Some d) -> nth_error theme_descriptions i = Some (Some d)) /\
  (forall i t, nth_error (snd st) i = Some (Some t) -> built_ok theme_names theme_descriptions i t).

(** In the build state, the theme [k] is not built yet and the description of
    [j] has not been taken. *)
Definition not_built_yet (theme_descriptions : list (option ThemeInfo)) (j k : nat)
    (st : list (option ThemeInfo) * list (option Theme.t)) : Prop :=
  (forall t, nth_error (snd st) k <> Some (Some t)) /\
  nth_error (fst st) j = nth_error theme_descriptions j.

Definition to_list {A} (o : option (list A)) : list A :=
  match o with Some vs => vs | None => [] end.

(** A map value [o] after pushing [ps] to it. *)
Definition opt_extend {A} (o : option (list A)) (ps : list A) : option (list A) :=
  match o, ps with None, [] => None | _, _ => Some (to_list o ++ ps)%list end.

(** The paths of the entries named [name], in order. *)
Definition group_paths (name : string) (l : list (FileKind * string * string)) : list string :=
  map (fun e => match e with (_, _, p) => p end)
      (filter (fun e => match e with (_, n, _) => String.eqb n name end) l).

(** ** Concrete inputs *)

(** A file system holding exactly the listed files. *)
Definition fs_of (files : list string) (p : string) : bool := existsb (String.eqb p) files.

Definition attr (n v : string) : AttrBytes.t :=
  {| AttrBytes.name := n; AttrBytes.param := None; AttrBytes.value := v |}.

Definition section (t : string) (a : list AttrBytes.t) : SectionBytes.t :=
  {| SectionBytes.title := t; SectionBytes.attrs := a |}.

(** [[1x1/apps] Size=1]: a Threshold directory with the default threshold 2. *)
Definition section_1px : SectionBytes.t := section "1x1/apps" [attr "Size" "1"].

Definition dir_1px : DirectoryIndex := {|
  directory_name := "1x1/apps"; is_scaled_dir := false; size := 1; scale := 1;
  context := None; directory_type := Threshold; max_size := 1; min_size := 1;
  threshold := 2 |}.

Definition dir_32 : DirectoryIndex := {|
  directory_name := "32x32/apps"; is_scaled_dir := false; size := 32; scale := 1;
  context := None; directory_type := Fixed; max_size := 32; min_size := 32;
  threshold := 2 |}.

Definition theme_index (inh : list string) (ds : list DirectoryIndex) : ThemeIndex :=
  {| name := "T"; comment := ""; inherits := inh; directories := ds;
     hidden := false; example := None |}.

Definition theme_info (nm : string) (inh : list string) (ds : list DirectoryIndex) : ThemeInfo :=
  {| internal_name := nm; base_dirs := ["/usr/share/icons/" ++ nm];
     index_location := "/usr/share/icons/" ++ nm ++ "/index.theme";
     index := theme_index inh ds |}.

(** A theme [t] whose only directory is a Fixed 32x32 one. *)
Definition theme_t : Theme.t := Theme.Mk (theme_info "t" [] [dir_32]) [].

Definition t_png := "/usr/share/icons/t/32x32/apps/a.png".
Definition t_xpm := "/usr/share/icons/t/32x32/apps/a.xpm".
Definition t_svg := "/usr/share/icons/t/32x32/apps/a.svg".

(** child -> parent -> grandparent, built by hand; only the grandparent's
    directory holds [a.png]. *)
Definition grandparent : Theme.t := Theme.Mk (theme_info "g" [] [dir_32]) [].
Definition parent_theme : Theme.t := Theme.Mk (theme_info "p" ["g"] [dir_32]) [grandparent].
Definition child_theme : Theme.t := Theme.Mk (theme_info "c" ["p"] [dir_32]) [parent_theme].
Definition g_png := "/usr/share/icons/g/32x32/apps/a.png".

(** Icons with no theme at all and one standalone icon. *)
Definition pixmap_a : IconFile.t :=
  {| IconFile.path := "/usr/share/pixmaps/a.png"; IconFile.name := "a"; IconFile.file_type := Png |}.
Definition icons_no_theme : Icons.t :=
  {| Icons.standalone_icons := [pixmap_a]; Icons.themes := [] |}.
Definition icons_with_t : Icons.t :=
  {| Icons.standalone_icons := [pixmap_a]; Icons.themes := [("t", theme_t)] |}.

(** The head of the Birch example: [[Icon Theme]] and [[scalable/apps]]. *)
Definition birch_entry : list (result SectionBytes.t EntryParseError) :=
  [Ok (section "Icon Theme" [attr "Name" "Birch"; attr "Comment" "Icon theme with a wooden look";
                             attr "Inherits" "wood,default"; attr "Directories" "scalable/apps"]);
   Ok (section "scalable/apps" [attr "Size" "48"; attr "Type" "Scalable"; attr "MinSize" "1";
                                attr "MaxSize" "256"; attr "Context" "Applications"])].

Definition birch_scalable_apps : DirectoryIndex := {|
  directory_name := "scalable/apps"; is_scaled_dir := false; size := 48; scale := 1;
  context := Some "Applications"; directory_type := Scalable; max_size := 256;
  min_size := 1; threshold := 2 |}.

Definition birch_index : ThemeIndex := {|
  name := "Birch"; comment := "Icon theme with a wooden look"; inherits := ["wood"; "default"];
  directories := [birch_scalable_apps]; hidden := false; example := None |}.

(** Surviving themes [a], [b], [c], [hicolor], [d]: [a] inherits [b] and
    [c], [b] inherits [c], [hicolor] and a missing [zz], [c] inherits [a]
    (a cycle), [d] inherits itself. *)
Definition chain_names : list string := ["a"; "b"; "c"; "hicolor"; "d"].
Definition chain_descriptions : list (option ThemeInfo) :=
  [Some (theme_info "a" ["b"; "c"] []); Some (theme_info "b" ["c"; "hicolor"; "zz"] []);
   Some (theme_info "c" ["a"] []); Some (theme_info "hicolor" [] []);
   Some (theme_info "d" ["d"] [])].

(** Acyclic inheritance [i -> k, j] and [j -> k]: the chain of [i] is
    [i; k; j], so [j] is built before its parent [k]. *)
Definition diamond_names : list string := ["i"; "k"; "j"].
Definition diamond_descs : list (option ThemeInfo) :=
  [Some (theme_info "i" ["k"; "j"] []); Some (theme_info "k" [] []); Some (theme_info "j" ["k"] [])].

(** The same themes with [i -> j, k]: the chain of [i] is [i; j; k]. *)
Definition ordered_descs : list (option ThemeInfo) :=
  [Some (theme_info "i" ["j"; "k"] []); Some (theme_info "k" [] []); Some (theme_info "j" ["k"] [])].

(** The two sections of [birch_entry]. *)
Definition birch_theme_section : SectionBytes.t :=
  section "Icon Theme" [attr "Name" "Birch"; attr "Comment" "Icon theme with a wooden look";
                        attr "Inherits" "wood,default"; attr "Directories" "scalable/apps"].
Definition birch_dir_section : SectionBytes.t :=
  section "scalable/apps" [attr "Size" "48"; attr "Type" "Scalable"; attr "MinSize" "1";
                           attr "MaxSize" "256"; attr "Context" "Applications"].
Definition birch_rest : list (result SectionBytes.t EntryParseError) := [Ok birch_dir_section].

(** A search directory [/usr/share/pixmaps] holding the regular file [a.png],
    a symbolic link [b.svg] and a directory [hicolor]. *)
Definition pixmaps_read_dir (p : string) : option (list (option DirEntry)) :=
  if String.eqb p "/usr/share/pixmaps"
  then Some [Some {| entry_file_name := "a.png"; entry_file_type := Some RegularFile |};
             Some {| entry_file_name := "b.svg"; entry_file_type := Some Symlink |};
             Some {| entry_file_name := "hicolor"; entry_file_type := Some Directory |}]
  else None.
Definition pixmaps_dirs : SearchDirectories.t := {| SearchDirectories.dirs := ["/usr/share/pixmaps"] |}.

(** ** Theorems *)

(** General facts about the outcome monad. *)

Lemma u32_result_release (z : Z) : u32_result Release z <> Panic.
Proof. unfold u32_result; destruct (in_u32 z); discriminate. Qed.

Lemma size_distance_release (d : DirectoryIndex) (s k : Z) :
  size_distance Release d s k <> Panic.
Proof.
  unfold size_distance, u32_mul, u32_sub, u32_add, u32_result.
  destruct (in_u32 (s * k)); simpl;
  destruct (directory_type d); simpl;
  repeat match goal with
         | |- context [in_u32 ?z] => destruct (in_u32 z); simpl
         | |- context [if ?b then _ else _] => destruct b; simpl
         end; discriminate.
Qed.

(** Where [matches_size] holds for a Threshold directory, a debug build of
    [size_distance] either panics on overflow or returns 0. *)
Lemma matches_size_distance_debug (d : DirectoryIndex) (s k : Z) :
  directory_type d = Threshold -> (0 <= k)%Z ->
  matches_size d s k = true ->
  size_distance Debug d s k = Panic \/ size_distance Debug d s k = Ret 0%Z.
Proof.
  intros Ht Hk Hm.
  unfold matches_size in Hm; rewrite Ht in Hm.
  destruct (scale d =? k)%Z eqn:Hsc; simpl in Hm; [|discriminate].
  apply Z.eqb_eq in Hsc. apply Z.leb_le in Hm.
  unfold size_distance; rewrite Ht.
  unfold u32_mul, u32_sub, u32_add, u32_result, in_u32, abs_diff in *.
  rewrite Hsc.
  repeat match goal with
         | |- context [((0 <=? ?z)%Z && (?z <=? u32_max)%Z)] =>
             destruct ((0 <=? z)%Z && (z <=? u32_max)%Z) eqn:?; simpl; [|now left]
         end.
  right.
  repeat match goal with H : (_ && _)%bool = true |- _ =>
    apply andb_prop in H; destruct H as [?H ?H] end.
  repeat match goal with H : (_ <=? _)%Z = true |- _ => apply Z.leb_le in H end.
  destruct (size d <? s)%Z eqn:Hlt; [apply Z.ltb_lt in Hlt | apply Z.ltb_ge in Hlt].
  - destruct (s * k <? (size d - threshold d) * k)%Z eqn:E1;
      [apply Z.ltb_lt in E1; nia|].
    destruct ((size d + threshold d) * k <? s * k)%Z eqn:E2;
      [apply Z.ltb_lt in E2; nia|reflexivity].
  - destruct (s * k <? (size d - threshold d) * k)%Z eqn:E1;
      [apply Z.ltb_lt in E1; nia|].
    destruct ((size d + threshold d) * k <? s * k)%Z eqn:E2;
      [apply Z.ltb_lt in E2; nia|reflexivity].
Qed.

(** C2 (code_bug): the Threshold branch of [size_distance] subtracts
    [self.size - self.threshold] unchecked.  The directory parsed from
    [[1x1/apps] Size=1] (threshold defaults to 2) makes every call panic in a
    debug build, whatever the requested size and scale; a release build
    wraps the lower bound to [u32::MAX]. *)
Theorem size_distance_threshold_underflow :
  parse_directory_index section_1px = Ok dir_1px /\
  (forall s k : Z, size_distance Debug dir_1px s k = Panic) /\
  size_distance Release dir_1px 2 1 = Ret 1%Z.
Proof.
  split; [reflexivity|split; [|reflexivity]].
  intros s k. unfold size_distance, u32_mul, u32_sub, u32_result.
  destruct (in_u32 (s * k)); reflexivity.
Qed.

(** C3 (code_bug): [matches_size] accepts size 2 at scale 1 for the
    Threshold directory [dir_1px] (|1 - 2| <= 2), yet [size_distance] is not
    0 there: a debug build panics and a release build returns 1. *)
Theorem matches_size_distance_not_zero :
  matches_size dir_1px 2 1 = true /\
  size_distance Debug dir_1px 2 1 = Panic /\
  size_distance Release dir_1px 2 1 = Ret 1%Z.
Proof. repeat split. Qed.

(** C4 (code_bug): [IconFile::from_path] rejects the XPM extension [.xpm]
    (the code tests for ["xmp"]) and accepts [.xmp] instead; [.PNG] is
    accepted case-insensitively. *)
Theorem from_path_rejects_xpm :
  extension "/usr/share/pixmaps/foo.xpm" = Some "xpm" /\
  from_path "/usr/share/pixmaps/foo.xpm" = None /\
  from_path "/usr/share/pixmaps/foo.xmp" =
    Some {| IconFile.path := "/usr/share/pixmaps/foo.xmp"; IconFile.name := "foo";
            IconFile.file_type := Xmp |} /\
  from_path "/usr/share/pixmaps/foo.PNG" =
    Some {| IconFile.path := "/usr/share/pixmaps/foo.PNG"; IconFile.name := "foo";
            IconFile.file_type := Png |}.
Proof. repeat split. Qed.

(** C7 (code_bug): [ThemeIndex::parse] reports [NotAnIconTheme] when there
    is no first section, but it never looks at the first section's title: a
    file whose first section is [[Foo]] parses successfully. *)
Theorem parse_ignores_first_title :
  parse_theme_index [] = Err NotAnIconTheme /\
  parse_theme_index [Ok (section "Foo" [attr "Name" "x"; attr "Directories" "d"])] =
    Ok {| name := "x"; comment := ""; inherits := []; directories := [];
          hidden := false; example := None |}.
Proof. split; reflexivity. Qed.

(** C10 (code_bug): [SearchDirectories::append] returns the drained
    [extra_dirs] vector, so the result has no directories at all, whatever
    the receiver and the argument. *)
Theorem append_returns_empty (self : SearchDirectories.t) (directories : list string) :
  SearchDirectories.dirs (SearchDirectories.append self directories) = [] /\
  SearchDirectories.dirs
    (SearchDirectories.append {| SearchDirectories.dirs := ["/usr/share/icons"] |}
                              ["/home/root/.icons"]) = [].
Proof. split; reflexivity. Qed.

(** C5 (code_bug): in the nearest-match pass, after [a.png] is found the
    inner loop goes on and overwrites [best_icon] with [a.svg]; and [a.xpm]
    is never probed ([EXTENSIONS] lists ["xmp"]), so in the exact pass [a.svg]
    wins over [a.xpm].  The exact pass itself prefers [a.png] over [a.svg]. *)
Theorem find_icon_here_extension_order (prof : Profile) :
  Theme.find_icon_here (fs_of [t_png; t_svg]) prof theme_t "a" 48 1 =
    Ret (Some {| IconFile.path := t_svg; IconFile.name := "a"; IconFile.file_type := Svg |}) /\
  Theme.find_icon_here (fs_of [t_xpm; t_svg]) prof theme_t "a" 32 1 =
    Ret (Some {| IconFile.path := t_svg; IconFile.name := "a"; IconFile.file_type := Svg |}) /\
  Theme.find_icon_here (fs_of [t_png; t_svg]) prof theme_t "a" 32 1 =
    Ret (Some {| IconFile.path := t_png; IconFile.name := "a"; IconFile.file_type := Png |}).
Proof. destruct prof; repeat split; vm_compute; reflexivity. Qed.

(** [find_icon_here] reads only the theme's own [info]. *)
Lemma find_icon_here_info (path_exists : string -> bool) (prof : Profile)
    (th : Theme.t) (n : string) (s k : Z) :
  Theme.find_icon_here path_exists prof th n s k =
  Theme.find_icon_here path_exists prof (Theme.Mk (Theme.info th) []) n s k.
Proof. destruct th; reflexivity. Qed.

Lemma find_mapM_map {A B C} (f : A -> Outcome (option C)) (g : B -> A) (l : list B) :
  find_mapM f (map g l) = find_mapM (fun x => f (g x)) l.
Proof. induction l as [|x l IH]; simpl; [reflexivity|]. rewrite IH. reflexivity. Qed.

Lemma find_mapM_ext {A B} (f g : A -> Outcome (option B)) (l : list A) :
  (forall x, In x l -> f x = g x) -> find_mapM f l = find_mapM g l.
Proof.
  induction l as [|x l IH]; intros H; simpl; [reflexivity|].
  rewrite (H x (or_introl eq_refl)), IH; [reflexivity|].
  intros y Hy; apply H; right; exact Hy.
Qed.

(** C9 (confirmed): [Theme::find_icon] looks at the theme and at the
    themes of its own [inherits_from] list only: removing every parent's
    parents changes nothing, and for a hand-built child -> parent ->
    grandparent an icon held only by the grandparent is not found from the
    child (although the grandparent itself finds it). *)
Theorem find_icon_ignores_grandparents (path_exists : string -> bool) (prof : Profile)
    (th : Theme.t) (icon_name : string) (size scale : Z) :
  Theme.find_icon path_exists prof th icon_name size scale =
  Theme.find_icon path_exists prof (strip_grandparents th) icon_name size scale /\
  Theme.find_icon (fs_of [g_png]) prof child_theme "a" 32 1 = Ret None /\
  Theme.find_icon (fs_of [g_png]) prof grandparent "a" 32 1 =
    Ret (Some {| IconFile.path := g_png; IconFile.name := "a"; IconFile.file_type := Png |}).
Proof.
  split; [|destruct prof; split; vm_compute; reflexivity].
  destruct th as [i ps].
  assert (E : Theme.find_icon_here path_exists prof (Theme.Mk i ps) icon_name size scale =
              Theme.find_icon_here path_exists prof (strip_grandparents (Theme.Mk i ps))
                                   icon_name size scale).
  { transitivity (Theme.find_icon_here path_exists prof (Theme.Mk i []) icon_name size scale);
      [apply find_icon_here_info|symmetry; apply find_icon_here_info]. }
  unfold Theme.find_icon. rewrite E.
  destruct (Theme.find_icon_here path_exists prof (strip_grandparents (Theme.Mk i ps))
                                 icon_name size scale) as [[f|]|]; simpl; try reflexivity.
  unfold strip_grandparents; cbn [Theme.inherits_from Theme.info].
  rewrite find_mapM_map. apply find_mapM_ext. intros p _.
  apply find_icon_here_info.
Qed.

(** ** Lookups that find nothing *)

Lemma bindO_ok {A B} prof (m : Outcome A) (k : A -> Outcome B) (Q : A -> Prop) (P : B -> Prop) :
  ok_or_debug_panic prof m Q -> (forall a, Q a -> ok_or_debug_panic prof (k a) P) ->
  ok_or_debug_panic prof (bindO m k) P.
Proof. destruct m; simpl; auto. Qed.

Lemma foldM_ok {A B} prof (f : A -> B -> Outcome A) (l : list B) (a : A) (P : A -> Prop) :
  P a -> (forall a x, In x l -> P a -> ok_or_debug_panic prof (f a x) P) ->
  ok_or_debug_panic prof (foldM f l a) P.
Proof.
  revert a; induction l as [|x l IH]; intros a Ha Hf; simpl; [exact Ha|].
  apply bindO_ok with (Q := P); [apply Hf; auto; left; reflexivity|].
  intros a' Ha'. apply IH; [exact Ha'|]. intros; apply Hf; auto; right; assumption.
Qed.

Lemma size_distance_ok prof (d : DirectoryIndex) (s k : Z) :
  ok_or_debug_panic prof (size_distance prof d s k) (fun _ => True).
Proof.
  destruct (size_distance prof d s k) eqn:E; simpl; [exact I|].
  destruct prof; [reflexivity|].
  exfalso; exact (size_distance_release d s k E).
Qed.

Lemma existsb_false_forall {A} (f : A -> bool) (l : list A) :
  existsb f l = false -> forall x, In x l -> f x = false.
Proof.
  intros H x Hx. destruct (f x) eqn:E; [|reflexivity].
  assert (existsb f l = true) by (apply existsb_exists; eauto). congruence.
Qed.

Lemma find_map_none {A B} (f : A -> option B) (l : list A) :
  (forall x, In x l -> f x = None) -> find_map f l = None.
Proof.
  induction l as [|x l IH]; intros H; simpl; [reflexivity|].
  rewrite (H x (or_introl eq_refl)). apply IH. intros; apply H; right; assumption.
Qed.

Lemma fold_left_nearest_file_none (path_exists : string -> bool) (distance : Z)
    (cand : string -> string) (fns : list string) (st : Z * option IconFile.t) :
  (forall fn, In fn fns -> Theme.probe path_exists (cand fn) = None) ->
  fold_left (fun st' fn => Theme.nearest_file path_exists distance st' (cand fn)) fns st = st.
Proof.
  revert st; induction fns as [|fn fns IH]; intros st H; simpl; [reflexivity|].
  assert (Hn : Theme.nearest_file path_exists distance st (cand fn) = st).
  { specialize (H fn (or_introl eq_refl)). unfold Theme.probe in H.
    unfold Theme.nearest_file. destruct (path_exists (cand fn)); [|reflexivity].
    rewrite H. reflexivity. }
  rewrite Hn. apply IH. intros; apply H; right; assumption.
Qed.

(** A theme that holds no icon [icon_name] finds nothing (or panics on
    overflow in a debug build). *)
Lemma find_icon_here_no_icon (path_exists : string -> bool) (prof : Profile)
    (th : Theme.t) (icon_name : string) (size scale : Z) :
  has_icon_here path_exists th icon_name = false ->
  ok_or_debug_panic prof (Theme.find_icon_here path_exists prof th icon_name size scale)
                    (fun r => r = None).
Proof.
  intros H.
  assert (Hp : forall b sd fn, In b (base_dirs (Theme.info th)) ->
                 In sd (directories (index (Theme.info th))) ->
                 In fn (Theme.file_names icon_name) ->
                 Theme.probe path_exists (Theme.candidate b sd fn) = None).
  { intros b sd fn Hb Hsd Hfn. unfold has_icon_here in H.
    pose proof (existsb_false_forall _ _ H b Hb) as H1; cbv beta in H1.
    pose proof (existsb_false_forall _ _ H1 sd Hsd) as H2; cbv beta in H2.
    pose proof (existsb_false_forall _ _ H2 fn Hfn) as H3; cbv beta in H3.
    destruct (Theme.probe path_exists (Theme.candidate b sd fn)); [discriminate|reflexivity]. }
  unfold Theme.find_icon_here.
  replace (Theme.exact_pass path_exists th icon_name size scale) with (@None IconFile.t).
  2:{ symmetry. unfold Theme.exact_pass. apply find_map_none. intros b Hb.
      apply find_map_none. intros sd Hsd. apply filter_In in Hsd as [Hsd _].
      apply find_map_none. intros fn Hfn. apply Hp; assumption. }
  unfold Theme.nearest_pass.
  apply bindO_ok with (Q := fun st => snd st = None).
  - apply foldM_ok; [reflexivity|]. intros st b Hb Hst.
    apply foldM_ok; [exact Hst|]. intros st' sd Hsd Hst'.
    unfold Theme.nearest_dir.
    apply bindO_ok with (Q := fun _ => True); [apply size_distance_ok|].
    intros distance _. destruct (distance <? fst st')%Z; [|exact Hst'].
    unfold ok_or_debug_panic.
    rewrite (fold_left_nearest_file_none path_exists distance (Theme.candidate b sd));
      [exact Hst'|].
    intros fn Hfn. apply Hp; assumption.
  - intros st Hst. simpl. exact Hst.
Qed.

Lemma find_mapM_none {A B} prof (f : A -> Outcome (option B)) (l : list A) :
  (forall x, In x l -> ok_or_debug_panic prof (f x) (fun r => r = None)) ->
  ok_or_debug_panic prof (find_mapM f l) (fun r => r = None).
Proof.
  induction l as [|x l IH]; intros H; simpl; [reflexivity|].
  apply bindO_ok with (Q := fun r => r = None); [apply H; left; reflexivity|].
  intros r ->. apply IH. intros; apply H; right; assumption.
Qed.

(** C6 (corrected), counterexample: with no theme named [Adwaita] and no
    [hicolor] theme, [Icons::find_icon] returns nothing, although a
    standalone icon with stem [a] exists. *)
Lemma find_icon_no_theme_no_fallback :
  Icons.find_standalone_icon icons_no_theme "a" = Some pixmap_a /\
  Icons.find_icon (fs_of []) Debug icons_no_theme "a" 48 1 "Adwaita" = Ret None /\
  Icons.find_icon (fs_of []) Release icons_no_theme "a" 48 1 "Adwaita" = Ret None.
Proof. repeat split. Qed.

(** A nearest-pass loop step that does not panic. *)
Lemma foldM_no_panic {A B} (f : A -> B -> Outcome A) (l : list B) (a : A) :
  (forall a' x, In x l -> f a' x <> Panic) -> foldM f l a <> Panic.
Proof.
  revert a; induction l as [|x l IH]; intros a H; simpl; [discriminate|].
  destruct (f a x) as [a'|] eqn:E; [simpl|exfalso; exact (H a x (or_introl eq_refl) E)].
  apply IH. intros; apply H; right; assumption.
Qed.

(** [find_icon_here] panics only in a size distance computation. *)
Lemma find_icon_here_no_panic (path_exists : string -> bool) (prof : Profile)
    (th : Theme.t) (icon_name : string) (size scale : Z) :
  Forall (fun sd => size_distance prof sd size scale <> Panic) (directories (index (Theme.info th))) ->
  Theme.find_icon_here path_exists prof th icon_name size scale <> Panic.
Proof.
  intros Hd. rewrite Forall_forall in Hd. unfold Theme.find_icon_here.
  destruct (Theme.exact_pass path_exists th icon_name size scale); [discriminate|].
  unfold Theme.nearest_pass.
  destruct (foldM _ (base_dirs (Theme.info th)) (u32_max, None)) eqn:E; [simpl; discriminate|exfalso].
  refine (foldM_no_panic _ _ _ _ E). intros st b _.
  apply foldM_no_panic. intros st' sd Hsd. unfold Theme.nearest_dir.
  destruct (size_distance prof sd size scale) eqn:Ed; [simpl|exfalso; exact (Hd sd Hsd Ed)].
  destruct (_ <? _)%Z; discriminate.
Qed.

Lemma find_mapM_no_panic {A B} (f : A -> Outcome (option B)) (l : list A) :
  (forall x, In x l -> f x <> Panic) -> find_mapM f l <> Panic.
Proof.
  induction l as [|x l IH]; intros H; simpl; [discriminate|].
  destruct (f x) as [[y|]|] eqn:E; simpl; [discriminate| |exfalso; exact (H x (or_introl eq_refl) E)].
  apply IH. intros; apply H; right; assumption.
Qed.

(** C6 (corrected), amended: if neither [theme_name] nor [hicolor] is a
    theme of [Icons], the result is no icon.  Otherwise, when the chosen
    theme and every theme of its [inherits_from] list hold no icon
    [icon_name], and the size distance of every directory of these themes
    is computed without overflow, the result is the first standalone icon
    whose file stem is [icon_name] (if any). *)
Theorem find_icon_standalone_fallback (path_exists : string -> bool) (prof : Profile)
    (ic : Icons.t) (icon_name : string) (size scale : Z) (theme_name : string) :
  (Icons.chosen_theme ic theme_name = None ->
   Icons.find_icon path_exists prof ic icon_name size scale theme_name = Ret None) /\
  (forall th : Theme.t,
     Icons.chosen_theme ic theme_name = Some th ->
     has_icon_here path_exists th icon_name = false ->
     Forall (fun p => has_icon_here path_exists p icon_name = false) (Theme.inherits_from th) ->
     Forall (fun t => Forall (fun sd => size_distance prof sd size scale <> Panic)
                             (directories (index (Theme.info t))))
            (th :: Theme.inherits_from th) ->
     Icons.find_icon path_exists prof ic icon_name size scale theme_name =
       Ret (Icons.find_standalone_icon ic icon_name)).
Proof.
  split.
  - intros Hc. unfold Icons.find_icon. rewrite Hc. reflexivity.
  - intros th Hc H1 H2 Hd.
    assert (Hok : ok_or_debug_panic prof
                    (Icons.find_icon path_exists prof ic icon_name size scale theme_name)
                    (fun r => r = Icons.find_standalone_icon ic icon_name)).
    { unfold Icons.find_icon. rewrite Hc.
      apply bindO_ok with (Q := fun r => r = None).
      - unfold Theme.find_icon.
        apply bindO_ok with (Q := fun r => r = None);
          [apply find_icon_here_no_icon; exact H1|].
        intros r ->. apply find_mapM_none. intros p Hp.
        apply find_icon_here_no_icon. rewrite Forall_forall in H2. apply H2; exact Hp.
      - intros r ->. reflexivity. }
    assert (Hnp : Icons.find_icon path_exists prof ic icon_name size scale theme_name <> Panic).
    { inversion Hd as [|? ? Hth Hps]; subst.
      unfold Icons.find_icon, Theme.find_icon. rewrite Hc.
      destruct (Theme.find_icon_here path_exists prof th icon_name size scale) as [[f|]|] eqn:E;
        simpl; [discriminate| |exfalso; exact (find_icon_here_no_panic _ _ _ _ _ _ Hth E)].
      destruct (find_mapM _ _) as [[f|]|] eqn:Em; simpl; [discriminate|discriminate|exfalso].
      refine (find_mapM_no_panic _ _ _ Em). intros p Hp.
      rewrite Forall_forall in Hps. apply find_icon_here_no_panic. exact (Hps p Hp). }
    destruct (Icons.find_icon path_exists prof ic icon_name size scale theme_name);
      simpl in Hok; [rewrite Hok; reflexivity|contradiction].
Qed.

(** Witness of C6: the theme [t] holds no [a], the standalone [a.png] is
    returned. *)
Lemma find_icon_standalone_fallback_witness :
  Icons.chosen_theme icons_with_t "t" = Some theme_t /\
  has_icon_here (fs_of []) theme_t "a" = false /\
  Icons.find_icon (fs_of []) Debug icons_with_t "a" 48 1 "t" = Ret (Some pixmap_a).
Proof.
  split; [reflexivity|split; [reflexivity|]].
  apply (proj2 (find_icon_standalone_fallback (fs_of []) Debug icons_with_t "a" 48 1 "t")
               theme_t); [reflexivity|reflexivity|constructor|].
  constructor; [|constructor].
  constructor; [vm_compute; intros H; discriminate H|constructor].
Defined.

(** ** Parsing lemmas *)

Lemma parse_directory_index_min_max (sec : SectionBytes.t) (d : DirectoryIndex) :
  parse_directory_index sec = Ok d ->
  (find_attr sec "MinSize" = Ok None -> min_size d = size d) /\
  (find_attr sec "MaxSize" = Ok None -> max_size d = size d) /\
  (forall v, find_attr sec "MinSize" = Ok (Some v) -> parse_u32 v = Ok (min_size d)) /\
  (forall v, find_attr sec "MaxSize" = Ok (Some v) -> parse_u32 v = Ok (max_size d)).
Proof.
  unfold parse_directory_index. intros H. inv_lets H.
  injection H as <-. simpl.
  repeat split; intros;
    repeat match goal with Hy : Ok _ = Ok _ |- _ => injection Hy as Hy end;
    subst; simpl in *; congruence.
Qed.

Lemma parse_directory_index_title_size (sec : SectionBytes.t) (d : DirectoryIndex) :
  parse_directory_index sec = Ok d ->
  to_str (SectionBytes.title sec) = Some (directory_name d) /\
  exists v, find_attr sec "Size" = Ok (Some v) /\ parse_u32 v = Ok (size d).
Proof.
  unfold parse_directory_index. intros H. inv_lets H.
  injection H as <-. cbn [directory_name size].
  split; [destruct (to_str (SectionBytes.title sec)); congruence|].
  match goal with E : find_attr_req sec "Size" = Ok ?v |- _ =>
    exists v; unfold find_attr_req in E; destruct (find_attr sec "Size") as [[w|]|];
    cbv beta iota in E; try discriminate E; injection E as ->;
    split; [reflexivity|assumption] end.
Qed.

Lemma collect_directories_origin (dirs : list string) (scaled : option (list string))
    (secs : list SectionBytes.t) (ds : list DirectoryIndex) (d : DirectoryIndex) :
  collect_directories dirs scaled secs = Ok ds -> In d ds ->
  exists sec d0, In sec secs /\ parse_directory_index sec = Ok d0 /\
                 (d = d0 \/ d = set_scaled d0).
Proof.
  revert ds; induction secs as [|sec secs IH]; intros ds H Hin; simpl in H.
  - injection H as <-. destruct Hin.
  - destruct (to_str (SectionBytes.title sec)) as [title|].
    2:{ destruct (IH ds H Hin) as (s & d0 & ? & ? & ?). exists s, d0. split; [right|]; auto. }
    destruct (negb _ && negb _).
    { destruct (IH ds H Hin) as (s & d0 & ? & ? & ?). exists s, d0. split; [right|]; auto. }
    destruct (parse_directory_index sec) as [d0|] eqn:Hp; [|discriminate H].
    destruct (collect_directories dirs scaled secs) as [rest|] eqn:Hr; [|discriminate H].
    injection H as <-. destruct Hin as [<-|Hin].
    + exists sec, d0. split; [left; reflexivity|split; [exact Hp|]].
      match goal with |- context [if ?b then _ else _] => destruct b end; auto.
    + destruct (IH rest eq_refl Hin) as (s & d1 & ? & ? & ?). exists s, d1. split; [right|]; auto.
Qed.

Lemma filter_ok_In {A E} (l : list (result A E)) (a : A) :
  In a (filter_ok l) -> In (Ok a) l.
Proof.
  induction l as [|[x|e] l IH]; simpl; intros H; [destruct H| |right; auto].
  destruct H as [->|H]; [left; reflexivity|right; auto].
Qed.

(** C8 (corrected), counterexample: a directory section with [Size=48] and
    [MinSize=64] parses, and the resulting directory has
    [min_size > size]. *)
Lemma parse_min_size_above_size :
  parse_theme_index
    [Ok (section "Icon Theme" [attr "Name" "T"; attr "Directories" "48x48/apps"]);
     Ok (section "48x48/apps" [attr "Size" "48"; attr "MinSize" "64"])] =
  Ok {| name := "T"; comment := ""; inherits := [];
        directories := [{| directory_name := "48x48/apps"; is_scaled_dir := false;
                           size := 48; scale := 1; context := None;
                           directory_type := Threshold; max_size := 48;
                           min_size := 64; threshold := 2 |}];
        hidden := false; example := None |} /\
  (48 < 64)%Z.
Proof. split; [reflexivity|lia]. Qed.

(** C8 (corrected), amended: every directory of a successful parse comes
    from a section after the first one whose title is the directory's name
    and whose [Size] is its size; that section's [MinSize] (resp. [MaxSize])
    value, when present, is the directory's [min_size] (resp. [max_size]),
    and when absent the directory's [min_size] (resp. [max_size]) equals
    [size].  So [min_size <= size <= max_size] holds when these attributes
    are absent or respect it; the parser does not check it. *)
Theorem parse_min_max_from_section (entry : list (result SectionBytes.t EntryParseError))
    (ti : ThemeIndex) (d : DirectoryIndex) :
  parse_theme_index entry = Ok ti -> In d (directories ti) ->
  exists first rest sec, entry = (Ok first :: rest)%list /\ In (Ok sec) rest /\
    to_str (SectionBytes.title sec) = Some (directory_name d) /\
    (exists v, find_attr sec "Size" = Ok (Some v) /\ parse_u32 v = Ok (size d)) /\
    (find_attr sec "MinSize" = Ok None -> min_size d = size d) /\
    (find_attr sec "MaxSize" = Ok None -> max_size d = size d) /\
    (forall v, find_attr sec "MinSize" = Ok (Some v) -> parse_u32 v = Ok (min_size d)) /\
    (forall v, find_attr sec "MaxSize" = Ok (Some v) -> parse_u32 v = Ok (max_size d)).
Proof.
  intros H Hin.
  destruct entry as [|[first|e] rest]; simpl in H; [discriminate H| |discriminate H].
  inv_lets H. injection H as <-. simpl in Hin.
  match goal with Hc : collect_directories _ _ _ = Ok _ |- _ =>
    destruct (collect_directories_origin _ _ _ _ _ Hc Hin) as (sec & d0 & Hs & Hp & Hd) end.
  exists first, rest, sec. split; [reflexivity|split; [apply filter_ok_In; exact Hs|]].
  destruct (parse_directory_index_min_max sec d0 Hp) as (H1 & H2 & H3 & H4).
  destruct (parse_directory_index_title_size sec d0 Hp) as (H5 & H6).
  destruct Hd as [->| ->]; [repeat split; assumption|].
  unfold set_scaled; simpl. repeat split; assumption.
Qed.

(** Witness of C8: the directory of the Birch example's [[scalable/apps]]
    section. *)
Lemma parse_min_max_from_section_witness :
  exists first rest sec, birch_entry = (Ok first :: rest)%list /\ In (Ok sec) rest /\
    to_str (SectionBytes.title sec) = Some "scalable/apps" /\
    (exists v, find_attr sec "Size" = Ok (Some v) /\ parse_u32 v = Ok 48%Z) /\
    (find_attr sec "MinSize" = Ok None -> 1%Z = 48%Z) /\
    (find_attr sec "MaxSize" = Ok None -> 256%Z = 48%Z) /\
    (forall v, find_attr sec "MinSize" = Ok (Some v) -> parse_u32 v = Ok 1%Z) /\
    (forall v, find_attr sec "MaxSize" = Ok (Some v) -> parse_u32 v = Ok 256%Z).
Proof.
  apply (parse_min_max_from_section birch_entry birch_index birch_scalable_apps).
  - vm_compute. reflexivity.
  - left; reflexivity.
Defined.

(** ** Chain lemmas *)

Lemma contains_In (chain : list nat) (i : nat) : contains chain i = true <-> In i chain.
Proof.
  unfold contains. rewrite existsb_exists. split.
  - intros (x & Hx & E). apply Nat.eqb_eq in E. subst. exact Hx.
  - intros H. exists i. split; [exact H|apply Nat.eqb_refl].
Qed.

Lemma NoDup_snoc (l : list nat) (x : nat) : NoDup l -> ~ In x l -> NoDup (l ++ [x]).
Proof.
  intros H Hx. apply NoDup_app; [exact H|constructor; [intros []|constructor]|].
  intros a Ha [<-|[]]. exact (Hx Ha).
Qed.

Lemma position_lt {A} (p : A -> bool) (l : list A) (k : nat) :
  position p l = Some k -> k < length l.
Proof.
  revert k; induction l as [|x l IH]; intros k H; simpl in H; [discriminate H|].
  destruct (p x); [injection H as <-; simpl; lia|].
  destruct (position p l) as [k'|] eqn:E; simpl in H; [|discriminate H].
  injection H as <-. specialize (IH k' eq_refl). simpl; lia.
Qed.

Lemma position_hicolor_nth (l : list string) (h : nat) :
  position (String.eqb "hicolor") l = Some h -> nth_error l h = Some "hicolor".
Proof.
  revert h; induction l as [|x l IH]; intros h H; cbn [position] in H; [discriminate H|].
  destruct (String.eqb "hicolor" x) eqn:E.
  - injection H as <-. apply String.eqb_eq in E. subst. reflexivity.
  - destruct (position (String.eqb "hicolor") l) as [k|]; cbn [option_map] in H; [|discriminate H].
    injection H as <-. cbn [nth_error]. apply IH. reflexivity.
Qed.

Lemma position_hicolor_In (l : list string) :
  In "hicolor" l -> exists h, position (String.eqb "hicolor") l = Some h.
Proof.
  induction l as [|x l IH]; cbn [position In]; intros H; [destruct H|].
  destruct (String.eqb "hicolor" x) eqn:E; [eexists; reflexivity|].
  destruct H as [->|H]; [rewrite String.eqb_refl in E; discriminate E|].
  destruct (IH H) as [k Hk]. rewrite Hk. eexists; reflexivity.
Qed.

Section ChainLemmas.
Variable theme_names : list string.
Variable theme_descriptions : list (option ThemeInfo).

Let N := number_of_themes theme_names.
Let bounded (chain : list nat) := Forall (fun x => x < N) chain.

Lemma push_parent_inv (chain : list nat) (parent : string) :
  NoDup chain -> bounded chain ->
  NoDup (push_parent theme_names chain parent) /\
  bounded (push_parent theme_names chain parent) /\
  length chain <= length (push_parent theme_names chain parent).
Proof.
  intros Hnd Hb. unfold push_parent.
  destruct (position _ theme_names) as [k|] eqn:Hk; [|auto].
  destruct (contains chain k) eqn:Hc; [auto|].
  split; [apply NoDup_snoc; [exact Hnd|]; rewrite <- contains_In, Hc; discriminate|].
  split; [apply Forall_app; split; [exact Hb|constructor; [|constructor]]|].
  - apply position_lt in Hk. exact Hk.
  - rewrite length_app; simpl; lia.
Qed.

Lemma visit_inv (chain : list nat) (node_idx : nat) :
  NoDup chain -> bounded chain ->
  NoDup (visit theme_names theme_descriptions chain node_idx) /\
  bounded (visit theme_names theme_descriptions chain node_idx) /\
  length chain <= length (visit theme_names theme_descriptions chain node_idx).
Proof.
  unfold visit.
  destruct (nth_error theme_descriptions node_idx) as [[description|]|]; [|auto|auto].
  generalize (inherits (index description)). intros parents.
  revert chain; induction parents as [|p ps IH]; intros chain Hnd Hb; simpl; [auto|].
  destruct (push_parent_inv chain p Hnd Hb) as (H1 & H2 & H3).
  destruct (IH _ H1 H2) as (H4 & H5 & H6). repeat split; [exact H4|exact H5|lia].
Qed.

(** The BFS never pushes an index twice, whatever the fuel. *)
Lemma bfs_NoDup (fuel cursor : nat) (chain : list nat) :
  NoDup chain -> bounded chain -> NoDup (bfs theme_names theme_descriptions fuel cursor chain).
Proof.
  revert cursor chain; induction fuel as [|fuel IH]; intros cursor chain Hnd Hb; simpl;
    [exact Hnd|].
  destruct (nth_error chain cursor) as [node_idx|]; [|exact Hnd].
  destruct (visit_inv chain node_idx Hnd Hb) as (H1 & H2 & _).
  apply IH; assumption.
Qed.

(** [S number_of_themes] iterations are enough for the [while let] loop to
    reach the end of the chain: more fuel gives the same chain. *)
Lemma bfs_fuel_enough (fuel cursor : nat) (chain : list nat) :
  NoDup chain -> bounded chain -> cursor <= length chain -> N < fuel + cursor ->
  forall k, bfs theme_names theme_descriptions (fuel + k) cursor chain =
            bfs theme_names theme_descriptions fuel cursor chain.
Proof.
  assert (Hlen : forall c, NoDup c -> bounded c -> length c <= N).
  { intros c Hnd Hb. rewrite <- (length_seq N 0). apply NoDup_incl_length; [exact Hnd|].
    intros x Hx. apply in_seq. unfold bounded in Hb. rewrite Forall_forall in Hb.
    specialize (Hb x Hx). lia. }
  revert cursor chain; induction fuel as [|fuel IH]; intros cursor chain Hnd Hb Hc Hf k.
  - specialize (Hlen chain Hnd Hb). lia.
  - simpl. destruct (nth_error chain cursor) as [node_idx|] eqn:E; [|reflexivity].
    assert (cursor < length chain) by (apply nth_error_Some; congruence).
    destruct (visit_inv chain node_idx Hnd Hb) as (H1 & H2 & H3).
    apply IH; [exact H1|exact H2|lia|lia].
Qed.

Lemma bfs_chain_fuel_enough (theme_idx : nat) :
  theme_idx < N ->
  forall k, bfs theme_names theme_descriptions (S N + k) 0 [theme_idx] =
            bfs_chain theme_names theme_descriptions theme_idx.
Proof.
  intros Hi k. unfold bfs_chain. fold N.
  apply bfs_fuel_enough; [constructor; [intros []|constructor]|constructor; [exact Hi|constructor]|simpl; lia|lia].
Qed.

End ChainLemmas.

(** C1 (confirmed): every chain computed by [resolve_only] lists each
    surviving theme index at most once; and when [hicolor] is among the
    surviving themes, its index is in every chain: already there after the
    BFS, or else appended as the last element. *)
Theorem theme_chains_no_revisit (theme_names : list string)
    (theme_descriptions : list (option ThemeInfo)) (i : nat) (chain : list nat) :
  nth_error (theme_chains theme_names theme_descriptions) i = Some chain ->
  NoDup chain /\
  (In "hicolor" theme_names ->
   exists h, nth_error theme_names h = Some "hicolor" /\ In h chain /\
     ((In h (bfs_chain theme_names theme_descriptions i) /\
       chain = bfs_chain theme_names theme_descriptions i) \/
      (~ In h (bfs_chain theme_names theme_descriptions i) /\
       chain = (bfs_chain theme_names theme_descriptions i ++ [h])%list))) .
Proof.
  intros H. unfold theme_chains in H. rewrite nth_error_map, nth_error_seq in H.
  destruct (Nat.ltb i (number_of_themes theme_names)) eqn:Hi; simpl in H; [|discriminate H].
  apply Nat.ltb_lt in Hi. injection H as <-.
  assert (Hnd : NoDup (bfs_chain theme_names theme_descriptions i)).
  { apply bfs_NoDup; [constructor; [intros []|constructor]|constructor; [exact Hi|constructor]]. }
  unfold theme_chain. split.
  - destruct (hicolor_idx theme_names) as [h|]; [|exact Hnd].
    destruct (contains _ h) eqn:Hc; [exact Hnd|].
    apply NoDup_snoc; [exact Hnd|]. rewrite <- contains_In, Hc. discriminate.
  - intros Hin. destruct (position_hicolor_In _ Hin) as [h Hh].
    exists h. split; [apply position_hicolor_nth; exact Hh|].
    unfold hicolor_idx. rewrite Hh.
    destruct (contains _ h) eqn:Hc.
    + apply contains_In in Hc. split; [exact Hc|left; split; [exact Hc|reflexivity]].
    + assert (Hn : ~ In h (bfs_chain theme_names theme_descriptions i))
        by (rewrite <- contains_In, Hc; discriminate).
      split; [apply in_or_app; right; left; reflexivity|right; split; [exact Hn|reflexivity]].
Qed.

(** Witness of C1: the chain of [d] is [[d; hicolor]]. *)
Lemma theme_chains_no_revisit_witness :
  nth_error (theme_chains chain_names chain_descriptions) 4 = Some [4; 3] /\
  In "hicolor" chain_names /\
  NoDup [4; 3] /\
  exists h, nth_error chain_names h = Some "hicolor" /\ In h [4; 3].
Proof.
  assert (Hin : In "hicolor" chain_names) by (right; right; right; left; reflexivity).
  destruct (theme_chains_no_revisit chain_names chain_descriptions 4 [4; 3] eq_refl)
    as [Hnd Hh].
  split; [reflexivity|split; [exact Hin|split; [exact Hnd|]]].
  destruct (Hh Hin) as (h & H1 & H2 & _). exists h. split; assumption.
Defined.

(** ** Further properties of the code *)

Lemma lowercase_back_ascii (x : ascii) :
  byte_of (to_ascii_lowercase x) < 128 -> byte_of x < 128.
Proof.
  unfold to_ascii_lowercase. destruct (in_range 65 90 (byte_of x)) eqn:E; [|auto].
  intros _. unfold in_range in E. apply andb_prop in E as [_ E]. apply Nat.leb_le in E. lia.
Qed.

Lemma lowercase_ascii (y : ascii) :
  byte_of y < 128 -> byte_of (to_ascii_lowercase y) < 128.
Proof.
  unfold to_ascii_lowercase. destruct (in_range 65 90 (byte_of y)) eqn:E; [|auto].
  intros _. unfold in_range in E. apply andb_prop in E as [_ E]. apply Nat.leb_le in E.
  unfold byte_of in *. rewrite nat_ascii_embedding; lia.
Qed.

Lemma eq_ignore_ascii_case_lowercase (a b : string) :
  eq_ignore_ascii_case a b = String.eqb (to_ascii_lowercase_str a) (to_ascii_lowercase_str b).
Proof.
  revert b; induction a as [|x a IH]; intros [|y b]; simpl; try reflexivity.
  rewrite IH. reflexivity.
Qed.

Lemma lowercase_eq_ascii_only (a b : string) :
  to_ascii_lowercase_str a = to_ascii_lowercase_str b -> ascii_only b -> ascii_only a.
Proof.
  unfold ascii_only.
  revert b; induction a as [|x a IH]; intros [|y b] H Hb; simpl in *; try discriminate; [constructor|].
  injection H as Hxy Hab. inversion Hb; subst.
  constructor; [|eapply IH; eauto].
  apply lowercase_back_ascii. rewrite Hxy. apply lowercase_ascii. assumption.
Qed.

Lemma ascii_only_to_str (s : string) : ascii_only s -> to_str s = Some s.
Proof.
  unfold ascii_only, to_str, bytes. intros H.
  replace (utf8_valid (map byte_of (list_ascii_of_string s))) with true; [reflexivity|].
  induction H as [|x l Hx H IH]; [reflexivity|]. simpl.
  apply Nat.ltb_lt in Hx. rewrite Hx. exact IH.
Qed.

Lemma ext_ascii_only (ft : FileType) : ascii_only (FileType.ext ft).
Proof. destruct ft; repeat constructor; cbv; lia. Qed.

Lemma to_str_some (s s' : string) : to_str s = Some s' -> s' = s.
Proof. unfold to_str. destruct (utf8_valid (bytes s)); congruence. Qed.

Lemma extension_file_stem (p e : string) :
  extension p = Some e -> exists stem, file_stem p = Some stem.
Proof.
  unfold extension, file_stem. destruct (file_name p) as [f|]; [|discriminate].
  destruct (rsplit_file_at_dot f) as [[b|] a]; [eauto|discriminate].
Qed.

(** X1: [IconFile::from_path] accepts a path exactly when it has an
    extension equal, ignoring ASCII case, to [png], [xmp] or [svg]; the icon
    keeps the path, is named after the file stem and has the type of that
    extension. *)
Theorem from_path_spec :
  (forall (p : string) (f : IconFile.t), from_path p = Some f ->
     IconFile.path f = p /\ file_stem p = Some (IconFile.name f) /\
     exists e, extension p = Some e /\
               eq_ignore_ascii_case e (FileType.ext (IconFile.file_type f)) = true) /\
  (forall (p e : string) (ft : FileType), extension p = Some e ->
     eq_ignore_ascii_case e (FileType.ext ft) = true ->
     exists stem, from_path p = Some {| IconFile.path := p; IconFile.name := stem;
                                       IconFile.file_type := ft |}).
Proof.
  split.
  - intros p f. unfold from_path, from_path_ext.
    destruct (extension p) as [e|] eqn:He; [|discriminate].
    destruct (to_str e) as [e'|] eqn:Ht; [|discriminate].
    apply to_str_some in Ht. subst e'.
    destruct (eq_ignore_ascii_case e "png") eqn:E1;
    [|destruct (eq_ignore_ascii_case e "xmp") eqn:E2;
      [|destruct (eq_ignore_ascii_case e "svg") eqn:E3; [|discriminate]]];
    (destruct (file_stem p) as [stem|] eqn:Hs; [|discriminate]);
    intros H; injection H as <-; simpl; (split; [reflexivity|split; [reflexivity|eauto]]).
  - intros p e ft He Hm.
    destruct (extension_file_stem p e He) as [stem Hs]. exists stem.
    pose proof Hm as Ha. rewrite eq_ignore_ascii_case_lowercase in Ha.
    apply String.eqb_eq in Ha.
    assert (Ht : to_str e = Some e)
      by (apply ascii_only_to_str; eapply lowercase_eq_ascii_only; [exact Ha|apply ext_ascii_only]).
    unfold from_path, from_path_ext. rewrite He, Ht, Hs.
    rewrite !eq_ignore_ascii_case_lowercase, Ha.
    destruct ft; reflexivity.
Qed.

Lemma split_on_nonempty (c : ascii) (s : string) : split_on c s <> [].
Proof.
  destruct s as [|x s]; simpl; [discriminate|].
  destruct (Ascii.eqb x c); [discriminate|]. destruct (split_on c s); discriminate.
Qed.

Lemma split_on_app (c : ascii) (a b : string) :
  split_on c (a ++ String c b) = (split_on c a ++ split_on c b)%list.
Proof.
  induction a as [|x a IH]; simpl; [rewrite Ascii.eqb_refl; reflexivity|].
  destruct (Ascii.eqb x c); [rewrite IH; reflexivity|]. rewrite IH.
  destruct (split_on c a) eqn:E; [exfalso; exact (split_on_nonempty c a E)|reflexivity].
Qed.

Lemma split_on_none (c : ascii) (s : string) :
  ~ In c (list_ascii_of_string s) -> split_on c s = [s].
Proof.
  induction s as [|x s IH]; simpl; intros H; [reflexivity|].
  destruct (Ascii.eqb x c) eqn:E; [apply Ascii.eqb_eq in E; subst; tauto|].
  rewrite IH; [reflexivity|tauto].
Qed.

Lemma last_opt_snoc {A} (l : list A) (x : A) : last_opt (l ++ [x])%list = Some x.
Proof.
  induction l as [|y l IH]; [reflexivity|]. simpl. rewrite <- IH.
  destruct (l ++ [x])%list eqn:E; [destruct l; discriminate|reflexivity].
Qed.

Lemma string_app_assoc (a b c : string) : (a ++ b) ++ c = a ++ (b ++ c).
Proof. induction a as [|x a IH]; simpl; [reflexivity|]. rewrite IH; reflexivity. Qed.

Lemma last_opt_string (s : string) (c : ascii) :
  last_opt (list_ascii_of_string s) = Some c -> exists q, s = q ++ String c "".
Proof.
  induction s as [|x s IH]; simpl; [discriminate|].
  destruct s as [|y s]; simpl.
  - intros H; injection H as <-. exists "". reflexivity.
  - intros H. destruct (IH H) as [q Hq]. exists (String x q). rewrite Hq. reflexivity.
Qed.

(** Separator insertion of [join] for a relative [p]. *)
Lemma join_relative (base p : string) :
  (match last_opt (list_ascii_of_string base) with
   | None => p
   | Some "/"%char => base ++ p
   | Some _ => base ++ "/" ++ p
   end) = p \/
  exists q, (match last_opt (list_ascii_of_string base) with
             | None => p
             | Some "/"%char => base ++ p
             | Some _ => base ++ "/" ++ p
             end) = q ++ String "/" p.
Proof.
  destruct (last_opt (list_ascii_of_string base)) as [c|] eqn:E; [right|left; reflexivity].
  destruct (ascii_dec c "/") as [->|Hc].
  - destruct (last_opt_string base "/" E) as [q ->]. exists q.
    rewrite string_app_assoc. reflexivity.
  - exists base.
    destruct c as [[] [] [] [] [] [] [] []]; try reflexivity; exfalso; apply Hc; reflexivity.
Qed.

Lemma join_cases (base p : string) :
  p <> "" -> ~ In "/"%char (list_ascii_of_string p) ->
  join base p = p \/ exists q, join base p = q ++ String "/" p.
Proof.
  intros Hp Hs. destruct p as [|x r]; [contradiction|].
  destruct (ascii_dec x "/") as [->|Hx]; [exfalso; apply Hs; left; reflexivity|].
  destruct x as [[] [] [] [] [] [] [] []];
    try (exfalso; apply Hx; reflexivity); apply join_relative.
Qed.

Lemma file_name_join (base p : string) :
  p <> "" -> ~ In "/"%char (list_ascii_of_string p) -> p <> "." -> p <> ".." ->
  file_name (join base p) = Some p.
Proof.
  intros H1 H2 H3 H4.
  assert (Hf : (fun c => negb (String.eqb c "") && negb (String.eqb c ".")) p = true).
  { cbv beta. apply String.eqb_neq in H1, H3. rewrite H1, H3. reflexivity. }
  assert (Hl : last_opt (component_names (join base p)) = Some p).
  { unfold component_names.
    destruct (join_cases base p H1 H2) as [->|[q ->]].
    - rewrite (split_on_none _ _ H2). simpl in Hf |- *. rewrite Hf. reflexivity.
    - rewrite split_on_app, (split_on_none _ _ H2), filter_app. simpl. rewrite Hf.
      apply last_opt_snoc. }
  unfold file_name. rewrite Hl. apply String.eqb_neq in H4. rewrite H4. reflexivity.
Qed.

Lemma rsplit_dot_app (a e : string) :
  rsplit_dot e = None -> rsplit_dot (a ++ String "." e) = Some (a, e).
Proof.
  intros He. induction a as [|x a IH]; simpl; [rewrite He; reflexivity|].
  rewrite IH. reflexivity.
Qed.

Lemma list_ascii_app (a b : string) :
  list_ascii_of_string (a ++ b) = (list_ascii_of_string a ++ list_ascii_of_string b)%list.
Proof. induction a as [|x a IH]; simpl; [reflexivity|]. rewrite IH; reflexivity. Qed.

Lemma from_path_join_ext (base icon_name : string) (ft : FileType) :
  icon_name <> "" -> ~ In "/"%char (list_ascii_of_string icon_name) ->
  from_path (join base (icon_name ++ "." ++ FileType.ext ft)) =
    Some {| IconFile.path := join base (icon_name ++ "." ++ FileType.ext ft);
            IconFile.name := icon_name; IconFile.file_type := ft |}.
Proof.
  intros Hn Hs.
  assert (Hfn : file_name (join base (icon_name ++ "." ++ FileType.ext ft)) =
                Some (icon_name ++ "." ++ FileType.ext ft)).
  { apply file_name_join.
    - destruct icon_name; [contradiction|discriminate].
    - rewrite list_ascii_app. intros H. apply in_app_or in H as [H|H]; [exact (Hs H)|].
      destruct ft; simpl in H; intuition discriminate.
    - destruct icon_name as [|x [|y r]]; [contradiction| |]; destruct ft; discriminate.
    - destruct icon_name as [|x [|y [|z r]]]; [contradiction| | |]; destruct ft; discriminate. }
  assert (Hr : rsplit_file_at_dot (icon_name ++ "." ++ FileType.ext ft) =
               (Some icon_name, Some (FileType.ext ft))).
  { unfold rsplit_file_at_dot.
    replace (String.eqb (icon_name ++ "." ++ FileType.ext ft) "..") with false.
    2:{ symmetry. apply String.eqb_neq.
        destruct icon_name as [|x [|y [|z r]]]; [contradiction| | |]; destruct ft; discriminate. }
    simpl. rewrite rsplit_dot_app by (destruct ft; reflexivity).
    apply String.eqb_neq in Hn. rewrite Hn. reflexivity. }
  unfold from_path, from_path_ext, extension, file_stem. rewrite Hfn, Hr.
  destruct ft; reflexivity.
Qed.

(** X2: for an icon name that is not empty and holds no [/], the probed file
    names are [name.png], [name.xmp] and [name.svg], and probing
    [base_dir/sub_dir/name.ext] gives the icon [name] of that type exactly
    when the path exists. *)
Theorem probe_candidate (path_exists : string -> bool) (icon_name : string) :
  icon_name <> "" -> ~ In "/"%char (list_ascii_of_string icon_name) ->
  Theme.file_names icon_name = map (fun ft => icon_name ++ "." ++ FileType.ext ft) FileType.types /\
  forall (base_dir : string) (sub_dir : DirectoryIndex) (ft : FileType),
    let p := Theme.candidate base_dir sub_dir (icon_name ++ "." ++ FileType.ext ft) in
    Theme.probe path_exists p =
      if path_exists p
      then Some {| IconFile.path := p; IconFile.name := icon_name; IconFile.file_type := ft |}
      else None.
Proof.
  intros Hn Hs. split; [reflexivity|].
  intros base_dir sub_dir ft p. unfold Theme.probe.
  destruct (path_exists p); [|reflexivity].
  unfold p, Theme.candidate. apply from_path_join_ext; assumption.
Qed.

Lemma probe_candidate_witness :
  "a" <> "" /\ ~ In "/"%char (list_ascii_of_string "a") /\
  Theme.file_names "a" = map (fun ft => "a" ++ "." ++ FileType.ext ft) FileType.types.
Proof.
  split; [discriminate|]. split; [simpl; intuition discriminate|].
  apply (probe_candidate (fun _ => true) "a"); [discriminate|simpl; intuition discriminate].
Defined.

Lemma find_map_some {A B} (f : A -> option B) (l : list A) (y : B) :
  find_map f l = Some y -> exists x, In x l /\ f x = Some y.
Proof.
  induction l as [|x l IH]; simpl; [discriminate|].
  destruct (f x) eqn:E; [intros H; injection H as <-; exists x; auto|].
  intros H. destruct (IH H) as (x' & ? & ?). exists x'. auto.
Qed.

Lemma find_map_exists {A B} (f : A -> option B) (l : list A) (x : A) :
  In x l -> f x <> None -> exists y, find_map f l = Some y.
Proof.
  induction l as [|x' l IH]; simpl; [intros []|]. intros Hx Hf.
  destruct (f x') eqn:E; [eauto|].
  destruct Hx as [->|Hx]; [congruence|]. exact (IH Hx Hf).
Qed.

Section Passes.
Variable path_exists : string -> bool.
Variable th : Theme.t.
Variable icon_name : string.
Variables s k : Z.

Lemma exact_pass_some (f : IconFile.t) :
  Theme.exact_pass path_exists th icon_name s k = Some f ->
  exists b sd fn, theme_hit path_exists th icon_name b sd fn f /\ matches_size sd s k = true.
Proof.
  unfold Theme.exact_pass. intros H.
  destruct (find_map_some _ _ _ H) as (b & Hb & H1).
  destruct (find_map_some _ _ _ H1) as (sd & Hsd & H2).
  destruct (find_map_some _ _ _ H2) as (fn & Hfn & H3).
  apply filter_In in Hsd as [Hsd Hm].
  exists b, sd, fn. unfold theme_hit. auto.
Qed.

Lemma exact_pass_exists (b : string) (sd : DirectoryIndex) (fn : string) (f : IconFile.t) :
  theme_hit path_exists th icon_name b sd fn f -> matches_size sd s k = true ->
  exists f', Theme.exact_pass path_exists th icon_name s k = Some f'.
Proof.
  intros (Hb & Hsd & Hfn & Hp) Hm. unfold Theme.exact_pass.
  apply (find_map_exists _ _ b Hb).
  destruct (find_map_exists (fun sub_dir => find_map (fun file_name =>
              Theme.probe path_exists (Theme.candidate b sub_dir file_name))
              (Theme.file_names icon_name))
              (filter (fun sd => matches_size sd s k) (directories (index (Theme.info th)))) sd) as [y Hy].
  - apply filter_In. auto.
  - destruct (find_map_exists (fun fn => Theme.probe path_exists (Theme.candidate b sd fn))
                               _ fn Hfn) as [y Hy]; [cbv beta; rewrite Hp; discriminate|]. cbv beta. rewrite Hy. discriminate.
  - cbv beta. rewrite Hy. discriminate.
Qed.

End Passes.

(** X3: when a directory of the theme that matches the requested size and
    scale holds the icon, [Theme::find_icon_here] returns an icon found in a
    directory that matches (the exact pass, before any nearest match). *)
Theorem find_icon_here_exact_first (path_exists : string -> bool) (prof : Profile) (th : Theme.t)
    (icon_name : string) (s k : Z) (b : string) (sd : DirectoryIndex) (fn : string) (f : IconFile.t) :
  theme_hit path_exists th icon_name b sd fn f -> matches_size sd s k = true ->
  exists b' sd' fn' f', Theme.find_icon_here path_exists prof th icon_name s k = Ret (Some f') /\
    theme_hit path_exists th icon_name b' sd' fn' f' /\ matches_size sd' s k = true.
Proof.
  intros Hh Hm. destruct (exact_pass_exists path_exists th icon_name s k b sd fn f Hh Hm) as [f' Hf'].
  destruct (exact_pass_some path_exists th icon_name s k f' Hf') as (b' & sd' & fn' & Hh' & Hm').
  exists b', sd', fn', f'. unfold Theme.find_icon_here. rewrite Hf'. auto.
Qed.

Section NearestLemmas.
Variable path_exists : string -> bool.
Variable prof : Profile.
Variable icon_name : string.
Variables s k : Z.

Lemma nearest_file_probe (distance : Z) (st : Z * option IconFile.t) (p : string) :
  Theme.nearest_file path_exists distance st p =
  match Theme.probe path_exists p with Some f => (distance, Some f) | None => st end.
Proof.
  unfold Theme.nearest_file, Theme.probe. destruct (path_exists p); [|reflexivity].
  destruct (from_path p); reflexivity.
Qed.

Lemma nearest_file_fold (distance : Z) (b : string) (sd : DirectoryIndex)
    (fns : list string) (st : Z * option IconFile.t) :
  (fold_left (fun st' fn => Theme.nearest_file path_exists distance st' (Theme.candidate b sd fn))
             fns st = st /\
   forall fn, In fn fns -> Theme.probe path_exists (Theme.candidate b sd fn) = None) \/
  exists fn f, In fn fns /\ Theme.probe path_exists (Theme.candidate b sd fn) = Some f /\
    fold_left (fun st' fn => Theme.nearest_file path_exists distance st' (Theme.candidate b sd fn))
              fns st = (distance, Some f).
Proof.
  revert st; induction fns as [|fn fns IH]; intros st; simpl.
  - left. split; [reflexivity|intros _ []].
  - rewrite nearest_file_probe.
    destruct (Theme.probe path_exists (Theme.candidate b sd fn)) as [f|] eqn:Hp.
    + destruct (IH (distance, Some f)) as [[-> _]|(fn' & f' & ? & ? & ->)].
      * right. exists fn, f. auto.
      * right. exists fn', f'. auto.
    + destruct (IH st) as [[-> Hn]|(fn' & f' & ? & ? & ->)].
      * left. split; [reflexivity|]. intros fn' [<-|H]; auto.
      * right. exists fn', f'. auto.
Qed.

Lemma nearest_inv_iff (Q Q' : string -> DirectoryIndex -> Prop) (st : Z * option IconFile.t) :
  (forall b sd, Q b sd <-> Q' b sd) ->
  nearest_inv path_exists prof icon_name s k Q st -> nearest_inv path_exists prof icon_name s k Q' st.
Proof.
  intros HQ (H1 & H2 & H3 & H4). split; [exact H1|split; [exact H2|split]].
  - intros f Hf. destruct (H3 f Hf) as (Hlt & b & sd & fn & ? & ? & ? & ?).
    split; [exact Hlt|]. exists b, sd, fn. rewrite <- HQ. auto.
  - intros b sd fn f d Hq. rewrite <- HQ in Hq. eauto.
Qed.

Lemma nearest_dir_inv (Q : string -> DirectoryIndex -> Prop) (b : string) (sd : DirectoryIndex)
    (st st' : Z * option IconFile.t) :
  nearest_inv path_exists prof icon_name s k Q st ->
  Theme.nearest_dir path_exists prof icon_name s k b st sd = Ret st' ->
  nearest_inv path_exists prof icon_name s k (fun b' sd' => Q b' sd' \/ (b' = b /\ sd' = sd)) st'.
Proof.
  intros (H1 & H2 & H3 & H4). unfold Theme.nearest_dir.
  destruct (size_distance prof sd s k) as [dist|] eqn:Hd; cbn [bindO]; [|discriminate].
  destruct (dist <? fst st)%Z eqn:Hlt; intros H.
  - apply Z.ltb_lt in Hlt.
    destruct (nearest_file_fold dist b sd (Theme.file_names icon_name) st)
      as [[E Hn]|(fn & f & Hfn & Hp & E)]; rewrite E in H; injection H as <-.
    + split; [exact H1|split; [exact H2|split]].
      * intros f Hf. destruct (H3 f Hf) as (Hl & b' & sd' & fn & ? & ? & ? & ?).
        split; [exact Hl|]. exists b', sd', fn. auto.
      * intros b' sd' fn f d [Hq|[-> ->]] Hfn Hp Hd'; [eauto|].
        rewrite Hn in Hp; [discriminate|exact Hfn].
    + unfold nearest_inv; cbn [fst snd]. split; [lia|split; [discriminate|split]].
      * intros f' Hf'. injection Hf' as <-. split; [lia|].
        exists b, sd, fn. auto.
      * intros b' sd' fn' f' d [Hq|[-> ->]] Hfn' Hp' Hd'.
        -- specialize (H4 b' sd' fn' f' d Hq Hfn' Hp' Hd'). lia.
        -- rewrite Hd in Hd'. injection Hd' as ->. lia.
  - apply Z.ltb_ge in Hlt. injection H as <-.
    split; [exact H1|split; [exact H2|split]].
    + intros f Hf. destruct (H3 f Hf) as (Hl & b' & sd' & fn & ? & ? & ? & ?).
      split; [exact Hl|]. exists b', sd', fn. auto.
    + intros b' sd' fn f d [Hq|[-> ->]] Hfn Hp Hd'; [eauto|].
      rewrite Hd in Hd'. injection Hd' as ->. lia.
Qed.

Lemma nearest_dirs_inv (Q : string -> DirectoryIndex -> Prop) (b : string)
    (sds : list DirectoryIndex) (st st' : Z * option IconFile.t) :
  nearest_inv path_exists prof icon_name s k Q st ->
  foldM (Theme.nearest_dir path_exists prof icon_name s k b) sds st = Ret st' ->
  nearest_inv path_exists prof icon_name s k (fun b' sd' => Q b' sd' \/ (b' = b /\ In sd' sds)) st'.
Proof.
  revert Q st; induction sds as [|sd sds IH]; intros Q st Hi H; simpl in H.
  - injection H as <-. apply (nearest_inv_iff Q); [|exact Hi].
    intros b' sd'. simpl. tauto.
  - destruct (Theme.nearest_dir path_exists prof icon_name s k b st sd) as [st1|] eqn:E;
      simpl in H; [|discriminate].
    pose proof (IH _ _ (nearest_dir_inv Q b sd st st1 Hi E) H) as Hr.
    refine (nearest_inv_iff _ _ st' _ Hr).
    intros b' sd'. simpl. split; intros; intuition (subst; auto).
Qed.

Lemma nearest_bases_inv (Q : string -> DirectoryIndex -> Prop) (bs : list string)
    (sds : list DirectoryIndex) (st st' : Z * option IconFile.t) :
  nearest_inv path_exists prof icon_name s k Q st ->
  foldM (fun st b => foldM (Theme.nearest_dir path_exists prof icon_name s k b) sds st) bs st = Ret st' ->
  nearest_inv path_exists prof icon_name s k (fun b' sd' => Q b' sd' \/ (In b' bs /\ In sd' sds)) st'.
Proof.
  revert Q st; induction bs as [|b bs IH]; intros Q st Hi H; simpl in H.
  - injection H as <-. apply (nearest_inv_iff Q); [|exact Hi].
    intros b' sd'. simpl. tauto.
  - destruct (foldM (Theme.nearest_dir path_exists prof icon_name s k b) sds st) as [st1|] eqn:E;
      simpl in H; [|discriminate].
    pose proof (IH _ _ (nearest_dirs_inv Q b sds st st1 Hi E) H) as Hr.
    refine (nearest_inv_iff _ _ st' _ Hr).
    intros b' sd'. simpl. split; intros; intuition (subst; auto).
Qed.

End NearestLemmas.

(** X4: the nearest pass of [Theme::find_icon_here] returns a hit at the
    least size distance over all hits of the theme, a distance below
    [u32::MAX]; when it returns nothing, every hit is at distance [u32::MAX]
    or more. *)
Theorem nearest_pass_minimal (path_exists : string -> bool) (prof : Profile) (th : Theme.t)
    (icon_name : string) (s k : Z) :
  (forall f, Theme.nearest_pass path_exists prof th icon_name s k = Ret (Some f) ->
   exists b sd fn d, theme_hit path_exists th icon_name b sd fn f /\
     size_distance prof sd s k = Ret d /\ (d < u32_max)%Z /\
     forall b' sd' fn' f' d', theme_hit path_exists th icon_name b' sd' fn' f' ->
       size_distance prof sd' s k = Ret d' -> (d <= d')%Z) /\
  (Theme.nearest_pass path_exists prof th icon_name s k = Ret None ->
   forall b' sd' fn' f' d', theme_hit path_exists th icon_name b' sd' fn' f' ->
     size_distance prof sd' s k = Ret d' -> (u32_max <= d')%Z).
Proof.
  unfold Theme.nearest_pass.
  destruct (foldM _ (base_dirs (Theme.info th)) (u32_max, None)) as [st|] eqn:E;
    simpl; [|split; [discriminate|discriminate]].
  assert (Hi : nearest_inv path_exists prof icon_name s k (fun _ _ => False) (u32_max, None)).
  { split; [simpl; lia|split; [reflexivity|split]]; [discriminate|]. intros; contradiction. }
  destruct (nearest_bases_inv path_exists prof icon_name s k _ _ _ _ _ Hi E)
    as (H1 & H2 & H3 & H4).
  split.
  - intros f Hf. injection Hf as Hf.
    destruct (H3 f Hf) as (Hl & b & sd & fn & [[]|[Hb Hsd]] & Hfn & Hp & Hd).
    exists b, sd, fn, (fst st). split; [repeat split; assumption|].
    split; [exact Hd|split; [exact Hl|]].
    intros b' sd' fn' f' d' (Hb' & Hsd' & Hfn' & Hp') Hd'.
    apply (H4 b' sd' fn' f' d'); auto.
  - intros Hn. injection Hn as Hn. rewrite <- (H2 Hn).
    intros b' sd' fn' f' d' (Hb' & Hsd' & Hfn' & Hp') Hd'.
    apply (H4 b' sd' fn' f' d'); auto.
Qed.

Lemma find_attr_err (sec : SectionBytes.t) (a : string) (e : ThemeParseError) :
  find_attr sec a = Err e -> e = NotUtf8.
Proof.
  unfold find_attr. destruct (find _ _) as [x|]; [|discriminate].
  destruct (to_str (AttrBytes.value x)); congruence.
Qed.

Lemma parse_u32_err (v : string) (e : ThemeParseError) : parse_u32 v = Err e -> e = ParseNumError.
Proof.
  unfold parse_u32. destruct v as [|c r]; [congruence|].
  repeat match goal with |- context [match ?x with _ => _ end] => destruct x end; congruence.
Qed.

Lemma parse_u32_or_err (o : option string) (d : Z) (e : ThemeParseError) :
  parse_u32_or o d = Err e -> e = ParseNumError.
Proof. destruct o; simpl; [apply parse_u32_err|congruence]. Qed.

(** X8: [DirectoryIndex::parse] fails with [NotUtf8] on a title that is not
    UTF-8, with [MissingRequiredAttribute] only for an absent [Size], and
    with [InvalidDirectoryType] only for a [Type] value it does not know. *)
Theorem parse_directory_index_errors (sec : SectionBytes.t) :
  (to_str (SectionBytes.title sec) = None -> parse_directory_index sec = Err NotUtf8) /\
  (to_str (SectionBytes.title sec) <> None -> find_attr sec "Size" = Ok None ->
   parse_directory_index sec = Err (MissingRequiredAttribute "Size")) /\
  (forall a, parse_directory_index sec = Err (MissingRequiredAttribute a) ->
   a = "Size" /\ find_attr sec "Size" = Ok None) /\
  (parse_directory_index sec = Err InvalidDirectoryType ->
   exists ty, find_attr sec "Type" = Ok (Some ty) /\ directory_type_try_from ty = None).
Proof.
  unfold parse_directory_index, find_attr_req.
  split; [intros ->; reflexivity|].
  split; [intros H ->; destruct (to_str (SectionBytes.title sec)); [reflexivity|congruence]|].
  split.
  - intros a.
    destruct (to_str (SectionBytes.title sec)); [|discriminate].
    destruct (find_attr sec "Size") as [[v|]|e] eqn:Hs;
      [|intros H; injection H as <-; auto|intros H; injection H as ->;
                                         apply find_attr_err in Hs; discriminate].
    destruct (parse_u32 v) eqn:Hv; [|intros H; injection H as ->; apply parse_u32_err in Hv; discriminate].
    repeat match goal with
           | |- context [match ?x with Ok _ => _ | Err _ => _ end] =>
               let E := fresh "E" in destruct x eqn:E;
               [| intros H; injection H as ->;
                  first [apply find_attr_err in E | apply parse_u32_or_err in E]; discriminate]
           | |- context [match ?x with Some _ => _ | None => _ end] => destruct x
           end; discriminate.
  - destruct (to_str (SectionBytes.title sec)); [|discriminate].
    destruct (find_attr sec "Size") as [[v|]|e] eqn:Hs; [|discriminate|intros H; injection H as ->;
                                         apply find_attr_err in Hs; discriminate].
    destruct (parse_u32 v) eqn:Hv; [|intros H; injection H as ->; apply parse_u32_err in Hv; discriminate].
    destruct (find_attr sec "Scale") as [o|e] eqn:E1; [|intros H; injection H as ->; apply find_attr_err in E1; discriminate].
    destruct (parse_u32_or o 1) eqn:E2; [|intros H; injection H as ->; apply parse_u32_or_err in E2; discriminate].
    destruct (find_attr sec "Context") eqn:E3; [|intros H; injection H as ->; apply find_attr_err in E3; discriminate].
    destruct (find_attr sec "Type") as [[ty|]|e] eqn:E4; [| |intros H; injection H as ->; apply find_attr_err in E4; discriminate].
    + destruct (directory_type_try_from ty) eqn:E5; [|intros _; exists ty; auto].
      repeat match goal with
             | |- context [match ?x with Ok _ => _ | Err _ => _ end] =>
                 let E := fresh "E" in destruct x eqn:E;
                 [| intros H; injection H as ->;
                    first [apply find_attr_err in E | apply parse_u32_or_err in E]; discriminate]
             end; discriminate.
    + repeat match goal with
             | |- context [match ?x with Ok _ => _ | Err _ => _ end] =>
                 let E := fresh "E" in destruct x eqn:E;
                 [| intros H; injection H as ->;
                    first [apply find_attr_err in E | apply parse_u32_or_err in E]; discriminate]
             end; discriminate.
Qed.

(** X5: [ThemeIndex::parse] fails with [ParseError] when the first section
    did not parse, and with [MissingRequiredAttribute] when [Name] is absent,
    or, [Name], [Comment] and [Inherits] being readable, when [Directories]
    is absent. *)
Theorem parse_theme_index_required (first : SectionBytes.t)
    (rest : list (result SectionBytes.t EntryParseError)) :
  (forall e, parse_theme_index (Err e :: rest) = Err (ParseError e)) /\
  (find_attr first "Name" = Ok None ->
   parse_theme_index (Ok first :: rest) = Err (MissingRequiredAttribute "Name")) /\
  (forall n oc oi, find_attr first "Name" = Ok (Some n) -> find_attr first "Comment" = Ok oc ->
   find_attr first "Inherits" = Ok oi -> find_attr first "Directories" = Ok None ->
   parse_theme_index (Ok first :: rest) = Err (MissingRequiredAttribute "Directories")).
Proof.
  split; [reflexivity|split].
  - intros H. simpl. unfold find_attr_req. rewrite H. reflexivity.
  - intros n oc oi H1 H2 H3 H4. simpl. unfold find_attr_req. rewrite H1, H2, H3, H4. reflexivity.
Qed.

(** X6: an index parsed by [ThemeIndex::parse] takes [Name] and [Example]
    from the [Icon Theme] section; [Comment], [Inherits] and [Hidden] default
    to the empty string, no parents and [false]; [Inherits] is split on
    commas and [Hidden] is read as a boolean. *)
Theorem parse_theme_index_defaults (first : SectionBytes.t)
    (rest : list (result SectionBytes.t EntryParseError)) (ti : ThemeIndex) :
  parse_theme_index (Ok first :: rest) = Ok ti ->
  find_attr first "Name" = Ok (Some (name ti)) /\
  find_attr first "Example" = Ok (example ti) /\
  (find_attr first "Comment" = Ok None -> comment ti = "") /\
  (find_attr first "Inherits" = Ok None -> inherits ti = []) /\
  (forall v, find_attr first "Inherits" = Ok (Some v) -> inherits ti = split_on "," v) /\
  (find_attr first "Hidden" = Ok None -> hidden ti = false) /\
  (forall v, find_attr first "Hidden" = Ok (Some v) -> parse_bool v = Ok (hidden ti)).
Proof.
  intros H. simpl in H. unfold find_attr_req in H.
  destruct (find_attr first "Name") as [[n|]|e] eqn:E1; try discriminate H.
  inv_lets H. injection H as <-. simpl.
  repeat split; intros; subst; simpl in *; try congruence;
    repeat match goal with Hy : Ok _ = Ok _ |- _ => injection Hy as Hy end;
    subst; try congruence.
Qed.

Lemma existsb_eqb_In (t : string) (l : list string) : existsb (String.eqb t) l = true <-> In t l.
Proof.
  rewrite existsb_exists. split.
  - intros (x & Hx & E). apply String.eqb_eq in E. subst. exact Hx.
  - intros H. exists t. split; [exact H|apply String.eqb_refl].
Qed.

Lemma parse_directory_index_ok_fields (sec : SectionBytes.t) (d : DirectoryIndex) :
  parse_directory_index sec = Ok d ->
  to_str (SectionBytes.title sec) = Some (directory_name d) /\
  is_scaled_dir d = negb (scale d =? 1)%Z /\
  (find_attr sec "Scale" = Ok None -> scale d = 1%Z) /\
  (find_attr sec "Type" = Ok None -> directory_type d = Threshold) /\
  (find_attr sec "Threshold" = Ok None -> threshold d = 2%Z) /\
  find_attr sec "Context" = Ok (context d).
Proof.
  unfold parse_directory_index. intros H. inv_lets H.
  injection H as <-. cbn [directory_name is_scaled_dir scale directory_type threshold context].
  refine (conj _ (conj eq_refl (conj _ (conj _ (conj _ _)))));
    [destruct (to_str (SectionBytes.title sec)); congruence| | | |reflexivity];
    intros Ha; injection Ha as ->; simpl in *; congruence.
Qed.

Lemma collect_directories_source (dirs : list string) (scaled : option (list string))
    (secs : list SectionBytes.t) (ds : list DirectoryIndex) (d : DirectoryIndex) :
  collect_directories dirs scaled secs = Ok ds -> In d ds ->
  exists sec t d0, In sec secs /\ to_str (SectionBytes.title sec) = Some t /\
    parse_directory_index sec = Ok d0 /\
    (existsb (String.eqb t) dirs = true \/ listed_scaled scaled t = true) /\
    d = (if listed_scaled scaled t then set_scaled d0 else d0).
Proof.
  revert ds; induction secs as [|sec secs IH]; intros ds H Hin; simpl in H.
  - injection H as <-. destruct Hin.
  - destruct (to_str (SectionBytes.title sec)) as [t|] eqn:Ht.
    2:{ destruct (IH ds H Hin) as (s & t' & d0 & ? & ? & ? & ? & ?).
        exists s, t', d0. split; [right|]; auto. }
    destruct (negb (existsb (String.eqb t) dirs) && negb _) eqn:Hl.
    { destruct (IH ds H Hin) as (s & t' & d0 & ? & ? & ? & ? & ?).
      exists s, t', d0. split; [right|]; auto. }
    destruct (parse_directory_index sec) as [d0|] eqn:Hp; [|discriminate H].
    destruct (collect_directories dirs scaled secs) as [rest|] eqn:Hr; [|discriminate H].
    injection H as <-. destruct Hin as [<-|Hin].
    + exists sec, t, d0. split; [left; reflexivity|split; [exact Ht|split; [exact Hp|split]]].
      * apply andb_false_iff in Hl. unfold listed_scaled.
        destruct Hl as [Hl|Hl]; apply negb_false_iff in Hl; auto.
      * unfold listed_scaled. reflexivity.
    + destruct (IH rest eq_refl Hin) as (s & t' & d1 & ? & ? & ? & ? & ?).
      exists s, t', d1. split; [right|]; auto.
Qed.

Lemma collect_directories_complete (dirs : list string) (scaled : option (list string))
    (secs : list SectionBytes.t) (ds : list DirectoryIndex) (sec : SectionBytes.t) (t : string) :
  collect_directories dirs scaled secs = Ok ds -> In sec secs ->
  to_str (SectionBytes.title sec) = Some t ->
  existsb (String.eqb t) dirs = true \/ listed_scaled scaled t = true ->
  exists d, parse_directory_index sec = Ok d /\
            In (if listed_scaled scaled t then set_scaled d else d) ds.
Proof.
  revert ds; induction secs as [|sec' secs IH]; intros ds H Hin Ht Hl; [destruct Hin|].
  simpl in H. destruct Hin as [->|Hin].
  - rewrite Ht in H.
    replace (negb (existsb (String.eqb t) dirs) && negb _) with false in H.
    2:{ unfold listed_scaled in Hl. destruct Hl as [-> | ->]; [reflexivity|].
        rewrite andb_false_r. reflexivity. }
    destruct (parse_directory_index sec) as [d|] eqn:Hp; [|discriminate H].
    destruct (collect_directories dirs scaled secs) as [rest|]; [|discriminate H].
    injection H as <-. exists d. split; [reflexivity|]. left. reflexivity.
  - destruct (to_str (SectionBytes.title sec')) as [t'|].
    2:{ exact (IH ds H Hin Ht Hl). }
    destruct (negb _ && negb _); [exact (IH ds H Hin Ht Hl)|].
    destruct (parse_directory_index sec') as [d'|]; [|discriminate H].
    destruct (collect_directories dirs scaled secs) as [rest|]; [|discriminate H].
    injection H as <-. destruct (IH rest eq_refl Hin Ht Hl) as (d & Hp & Hd).
    exists d. split; [exact Hp|right; exact Hd].
Qed.

Lemma filter_ok_app {A E} (l1 l2 : list (result A E)) :
  filter_ok (l1 ++ l2) = (filter_ok l1 ++ filter_ok l2)%list.
Proof. induction l1 as [|[a|e] l1 IH]; simpl; [reflexivity|rewrite IH; reflexivity|exact IH]. Qed.

Lemma collect_directories_skip (dirs : list string) (scaled : option (list string))
    (a b : list SectionBytes.t) (sec : SectionBytes.t) :
  match to_str (SectionBytes.title sec) with
  | None => True
  | Some t => existsb (String.eqb t) dirs = false /\ listed_scaled scaled t = false
  end ->
  collect_directories dirs scaled (a ++ sec :: b) = collect_directories dirs scaled (a ++ b).
Proof.
  intros Hs. induction a as [|x a IH]; simpl.
  - destruct (to_str (SectionBytes.title sec)) as [t|]; [|reflexivity].
    destruct Hs as [H1 H2]. unfold listed_scaled in H2. rewrite H1, H2. reflexivity.
  - rewrite IH. reflexivity.
Qed.

Lemma parse_theme_index_collect (first : SectionBytes.t)
    (rest : list (result SectionBytes.t EntryParseError)) (ti : ThemeIndex) (ds_s : string)
    (so : option string) :
  parse_theme_index (Ok first :: rest) = Ok ti ->
  find_attr first "Directories" = Ok (Some ds_s) ->
  find_attr first "ScaledDirectories" = Ok so ->
  collect_directories (split_on "," ds_s) (option_map (split_on ",") so) (filter_ok rest) =
    Ok (directories ti).
Proof.
  intros H Hd Hs. simpl in H. unfold find_attr_req in H. rewrite Hd, Hs in H.
  inv_lets H. injection H as <-. simpl. congruence.
Qed.
(** X7: a directory parsed by [DirectoryIndex::parse] is named after the
    section title, is scaled exactly when its scale is not 1, takes its
    [Context], and has the defaults scale 1, type [Threshold] and threshold
    2. *)
Theorem parse_directory_index_fields (sec : SectionBytes.t) (d : DirectoryIndex) :
  parse_directory_index sec = Ok d ->
  to_str (SectionBytes.title sec) = Some (directory_name d) /\
  is_scaled_dir d = negb (scale d =? 1)%Z /\
  (find_attr sec "Scale" = Ok None -> scale d = 1%Z) /\
  (find_attr sec "Type" = Ok None -> directory_type d = Threshold) /\
  (find_attr sec "Threshold" = Ok None -> threshold d = 2%Z) /\
  find_attr sec "Context" = Ok (context d).
Proof. exact (parse_directory_index_ok_fields sec d). Qed.

Lemma listed_scaled_In (so : option string) (t : string) :
  listed_scaled (option_map (split_on ",") so) t = true <->
  match so with Some v => In t (split_on "," v) | None => False end.
Proof.
  destruct so as [v|]; simpl; [apply existsb_eqb_In|split; [discriminate|intros []]].
Qed.

(** X9: every directory of a parsed index comes from a well-formed section
    after the first one, carrying its title; its name is listed in
    [Directories] or [ScaledDirectories]; it is marked scaled exactly when it
    is listed in [ScaledDirectories] or its scale is not 1. *)
Theorem parse_directories_listed (first : SectionBytes.t)
    (rest : list (result SectionBytes.t EntryParseError)) (ti : ThemeIndex) (ds_s : string)
    (so : option string) (d : DirectoryIndex) :
  parse_theme_index (Ok first :: rest) = Ok ti ->
  find_attr first "Directories" = Ok (Some ds_s) ->
  find_attr first "ScaledDirectories" = Ok so ->
  In d (directories ti) ->
  let scaled := match so with Some v => In (directory_name d) (split_on "," v) | None => False end in
  (exists sec, In (Ok sec) rest /\ SectionBytes.title sec = directory_name d) /\
  (In (directory_name d) (split_on "," ds_s) \/ scaled) /\
  (is_scaled_dir d = true <-> scaled \/ scale d <> 1%Z).
Proof.
  intros H Hd Hs Hin scaled.
  pose proof (parse_theme_index_collect first rest ti ds_s so H Hd Hs) as Hc.
  destruct (collect_directories_source _ _ _ _ _ Hc Hin) as (sec & t & d0 & Hsec & Ht & Hp & Hl & ->).
  destruct (parse_directory_index_ok_fields sec d0 Hp) as (Hn & Hsc & _).
  rewrite Hn in Ht. injection Ht as Ht.
  assert (Hname : directory_name (if listed_scaled (option_map (split_on ",") so) t
                                  then set_scaled d0 else d0) = t)
    by (destruct (listed_scaled _ t); exact Ht).
  unfold scaled. rewrite Hname.
  split; [|split].
  - exists sec. split; [apply filter_ok_In; exact Hsec|].
    apply to_str_some in Hn. rewrite <- Hn. exact Ht.
  - rewrite <- listed_scaled_In, <- existsb_eqb_In. exact Hl.
  - rewrite <- listed_scaled_In.
    destruct (listed_scaled (option_map (split_on ",") so) t); simpl.
    + split; [intros _; left; reflexivity|reflexivity].
    + rewrite Hsc. destruct (scale d0 =? 1)%Z eqn:E; simpl.
      * apply Z.eqb_eq in E. split; [discriminate|intros [H1|H1]; [discriminate|contradiction]].
      * apply Z.eqb_neq in E. split; [intros _; right; exact E|reflexivity].
Qed.

(** X11: every well-formed section after the first one whose title is listed
    in [Directories] or [ScaledDirectories] parses as a directory, which the
    index keeps: marked scaled when its title is listed in
    [ScaledDirectories], unchanged otherwise. *)
Theorem parse_listed_sections_kept (first : SectionBytes.t)
    (rest : list (result SectionBytes.t EntryParseError)) (ti : ThemeIndex) (ds_s : string)
    (so : option string) (sec : SectionBytes.t) (t : string) :
  parse_theme_index (Ok first :: rest) = Ok ti ->
  find_attr first "Directories" = Ok (Some ds_s) ->
  find_attr first "ScaledDirectories" = Ok so ->
  In (Ok sec) rest -> to_str (SectionBytes.title sec) = Some t ->
  In t (split_on "," ds_s) \/ match so with Some v => In t (split_on "," v) | None => False end ->
  exists d, parse_directory_index sec = Ok d /\
    ((match so with Some v => In t (split_on "," v) | None => False end) ->
       In (set_scaled d) (directories ti)) /\
    (~ (match so with Some v => In t (split_on "," v) | None => False end) ->
       In d (directories ti)).
Proof.
  intros H Hd Hs Hsec Ht Hl.
  pose proof (parse_theme_index_collect first rest ti ds_s so H Hd Hs) as Hc.
  assert (Hsec' : In sec (filter_ok rest)).
  { clear -Hsec. induction rest as [|[x|e] rest IH]; simpl in *; [contradiction| |].
    + destruct Hsec as [Hx|Hx]; [injection Hx as ->; left; reflexivity|right; auto].
    + destruct Hsec as [Hx|Hx]; [discriminate|auto]. }
  assert (Hl' : existsb (String.eqb t) (split_on "," ds_s) = true \/
                listed_scaled (option_map (split_on ",") so) t = true)
    by (rewrite listed_scaled_In, existsb_eqb_In; exact Hl).
  destruct (collect_directories_complete _ _ _ _ sec t Hc Hsec' Ht Hl') as (d & Hp & Hin).
  exists d. split; [exact Hp|]. rewrite <- listed_scaled_In.
  destruct (listed_scaled (option_map (split_on ",") so) t).
  - split; [intros _; exact Hin|intros Hn; exfalso; apply Hn; reflexivity].
  - split; [discriminate|intros _; exact Hin].
Qed.

(** X10: [ThemeIndex::parse] ignores the sections after the first one that
    did not parse, and the sections listed neither in [Directories] nor in
    [ScaledDirectories]. *)
Theorem parse_theme_index_skips (first : SectionBytes.t)
    (l1 l2 : list (result SectionBytes.t EntryParseError)) :
  (forall e, parse_theme_index (Ok first :: l1 ++ Err e :: l2) =
             parse_theme_index (Ok first :: l1 ++ l2)) /\
  (forall ds_s so sec,
     find_attr first "Directories" = Ok (Some ds_s) ->
     find_attr first "ScaledDirectories" = Ok so ->
     (forall t, to_str (SectionBytes.title sec) = Some t ->
        ~ In t (split_on "," ds_s) /\
        match so with Some v => ~ In t (split_on "," v) | None => True end) ->
     parse_theme_index (Ok first :: l1 ++ Ok sec :: l2) =
     parse_theme_index (Ok first :: l1 ++ l2)).
Proof.
  split.
  - intros e. cbn [parse_theme_index]. rewrite !filter_ok_app. reflexivity.
  - intros ds_s so sec Hd Hs Hu. cbn [parse_theme_index]. unfold find_attr_req.
    rewrite Hd, Hs. cbv beta iota.
    rewrite !filter_ok_app. cbn [filter_ok].
    rewrite collect_directories_skip; [reflexivity|].
    destruct (to_str (SectionBytes.title sec)) as [t|]; [|exact I].
    destruct (Hu t eq_refl) as [H1 H2]. split.
    + destruct (existsb (String.eqb t) (split_on "," ds_s)) eqn:E; [|reflexivity].
      apply existsb_eqb_In in E. contradiction.
    + destruct (listed_scaled (option_map (split_on ",") so) t) eqn:E; [|reflexivity].
      apply listed_scaled_In in E. destruct so; [contradiction|destruct E].
Qed.

Section ClosureLemmas.
Variable theme_names : list string.
Variable theme_descriptions : list (option ThemeInfo).

Lemma push_parent_prefix (chain : list nat) (p : string) :
  exists ext, push_parent theme_names chain p = (chain ++ ext)%list.
Proof.
  unfold push_parent. destruct (position _ _) as [k|]; [|exists []; rewrite app_nil_r; reflexivity].
  destruct (contains chain k); [exists []; rewrite app_nil_r; reflexivity|exists [k]; reflexivity].
Qed.

Lemma fold_push_parent_prefix (ps : list string) (chain : list nat) :
  exists ext, fold_left (push_parent theme_names) ps chain = (chain ++ ext)%list.
Proof.
  revert chain; induction ps as [|p ps IH]; intros chain; simpl.
  - exists []; rewrite app_nil_r; reflexivity.
  - destruct (push_parent_prefix chain p) as [e1 ->]. destruct (IH (chain ++ e1)%list) as [e2 ->].
    exists (e1 ++ e2)%list. rewrite app_assoc. reflexivity.
Qed.

Lemma fold_push_parent_In (ps : list string) (chain : list nat) (p : string) (j : nat) :
  In p ps -> position (fun name => String.eqb name p) theme_names = Some j ->
  In j (fold_left (push_parent theme_names) ps chain).
Proof.
  revert chain; induction ps as [|p' ps IH]; intros chain Hp Hj; [destruct Hp|]. simpl.
  destruct Hp as [->|Hp]; [|apply IH; assumption].
  destruct (fold_push_parent_prefix ps (push_parent theme_names chain p)) as [e ->].
  apply in_or_app. left. unfold push_parent. rewrite Hj.
  destruct (contains chain j) eqn:Hc; [apply contains_In; exact Hc|].
  apply in_or_app. right. left. reflexivity.
Qed.

Lemma visit_prefix (chain : list nat) (node : nat) :
  exists ext, visit theme_names theme_descriptions chain node = (chain ++ ext)%list.
Proof.
  unfold visit. destruct (nth_error theme_descriptions node) as [[d|]|];
    [apply fold_push_parent_prefix| |]; exists []; rewrite app_nil_r; reflexivity.
Qed.

Lemma visit_parents_in (chain : list nat) (node : nat) :
  parents_in theme_names theme_descriptions node (visit theme_names theme_descriptions chain node).
Proof.
  intros d p j Hd Hp Hj. unfold visit. rewrite Hd. eapply fold_push_parent_In; eassumption.
Qed.

Lemma parents_in_app (x : nat) (chain ext : list nat) :
  parents_in theme_names theme_descriptions x chain ->
  parents_in theme_names theme_descriptions x (chain ++ ext)%list.
Proof. intros H d p j Hd Hp Hj. apply in_or_app. left. eapply H; eassumption. Qed.

Lemma bfs_prefix (fuel cursor : nat) (chain : list nat) :
  exists ext, bfs theme_names theme_descriptions fuel cursor chain = (chain ++ ext)%list.
Proof.
  revert cursor chain; induction fuel as [|fuel IH]; intros cursor chain; simpl.
  - exists []; rewrite app_nil_r; reflexivity.
  - destruct (nth_error chain cursor) as [node|]; [|exists []; rewrite app_nil_r; reflexivity].
    destruct (visit_prefix chain node) as [e1 ->]. destruct (IH (S cursor) (chain ++ e1)%list) as [e2 ->].
    exists (e1 ++ e2)%list. rewrite app_assoc. reflexivity.
Qed.

Lemma bfs_closed (fuel cursor : nat) (chain : list nat) :
  NoDup chain -> Forall (fun x => x < number_of_themes theme_names) chain ->
  cursor <= length chain -> number_of_themes theme_names < fuel + cursor ->
  (forall pos x, pos < cursor -> nth_error chain pos = Some x ->
     parents_in theme_names theme_descriptions x chain) ->
  forall x, In x (bfs theme_names theme_descriptions fuel cursor chain) ->
    parents_in theme_names theme_descriptions x (bfs theme_names theme_descriptions fuel cursor chain).
Proof.
  assert (Hlen : forall c, NoDup c -> Forall (fun x => x < number_of_themes theme_names) c ->
                   length c <= number_of_themes theme_names).
  { intros c Hnd Hb. rewrite <- (length_seq (number_of_themes theme_names) 0).
    apply NoDup_incl_length; [exact Hnd|].
    intros x Hx. apply in_seq. rewrite Forall_forall in Hb. specialize (Hb x Hx). lia. }
  revert cursor chain; induction fuel as [|fuel IH]; intros cursor chain Hnd Hb Hc Hf Hinv.
  - specialize (Hlen chain Hnd Hb). lia.
  - simpl. destruct (nth_error chain cursor) as [node|] eqn:E.
    + assert (Hlt : cursor < length chain) by (apply nth_error_Some; congruence).
      destruct (visit_inv theme_names theme_descriptions chain node Hnd Hb) as (H1 & H2 & H3).
      apply IH; [exact H1|exact H2|lia|lia|].
      intros pos x Hpos Hx. destruct (visit_prefix chain node) as [e He].
      rewrite He in Hx |- *.
      destruct (Nat.eq_dec pos cursor) as [->|Hne].
      * rewrite nth_error_app1 in Hx by lia. rewrite E in Hx. injection Hx as <-.
        rewrite <- He. apply visit_parents_in.
      * rewrite nth_error_app1 in Hx by lia. apply parents_in_app. apply (Hinv pos); [lia|exact Hx].
    + apply nth_error_None in E. intros x Hx.
      destruct (In_nth_error chain x Hx) as [pos Hpos].
      apply (Hinv pos); [|exact Hpos].
      assert (pos < length chain) by (apply nth_error_Some; congruence). lia.
Qed.

End ClosureLemmas.

(** X12: the chain of a theme starts with the theme itself and holds every
    surviving parent of every theme of its breadth-first walk. *)
Theorem theme_chain_closed (theme_names : list string)
    (theme_descriptions : list (option ThemeInfo)) (i : nat) :
  i < number_of_themes theme_names ->
  hd_error (theme_chain theme_names theme_descriptions i) = Some i /\
  forall x d parent j, In x (bfs_chain theme_names theme_descriptions i) ->
    nth_error theme_descriptions x = Some (Some d) ->
    In parent (inherits (index d)) ->
    position (fun name => String.eqb name parent) theme_names = Some j ->
    In j (theme_chain theme_names theme_descriptions i).
Proof.
  intros Hi.
  assert (Hsub : forall y, In y (bfs_chain theme_names theme_descriptions i) ->
                           In y (theme_chain theme_names theme_descriptions i)).
  { intros y Hy. unfold theme_chain.
    destruct (hicolor_idx theme_names) as [h|]; [|exact Hy].
    destruct (contains _ h); [exact Hy|apply in_or_app; left; exact Hy]. }
  split.
  - destruct (bfs_prefix theme_names theme_descriptions (S (number_of_themes theme_names)) 0 [i])
      as [e He].
    unfold theme_chain, bfs_chain. rewrite He.
    destruct (hicolor_idx theme_names) as [h|]; [|reflexivity].
    destruct (contains _ h); reflexivity.
  - intros x d parent j Hx Hd Hp Hj. apply Hsub.
    refine (bfs_closed theme_names theme_descriptions _ 0 [i] _ _ _ _ _ x Hx d parent j Hd Hp Hj).
    + constructor; [intros []|constructor].
    + constructor; [exact Hi|constructor].
    + simpl; lia.
    + lia.
    + intros pos y Hpos. lia.
Qed.

Lemma length_list_set {A} (l : list A) (i : nat) (x : A) : length (list_set l i x) = length l.
Proof. revert i; induction l as [|y l IH]; intros [|i]; simpl; auto. Qed.

Lemma nth_error_list_set_eq {A} (l : list A) (i : nat) (x : A) :
  i < length l -> nth_error (list_set l i x) i = Some x.
Proof.
  revert i; induction l as [|y l IH]; intros [|i] H; simpl in *; try lia; auto with arith.
Qed.

Lemma nth_error_list_set_ne {A} (l : list A) (i j : nat) (x : A) :
  i <> j -> nth_error (list_set l i x) j = nth_error l j.
Proof.
  revert i j; induction l as [|y l IH]; intros [|i] [|j] H; simpl; auto; try lia.
Qed.

Lemma mapM_Forall2 {A B} (f : A -> Outcome B) (l : list A) (l' : list B) :
  mapM f l = Ret l' -> Forall2 (fun x y => f x = Ret y) l l'.
Proof.
  revert l'; induction l as [|x l IH]; intros l' H; simpl in H.
  - injection H as <-. constructor.
  - destruct (f x) as [y|] eqn:E; [|discriminate]. simpl in H.
    destruct (mapM f l) as [ys|]; [|discriminate]. simpl in H. injection H as <-.
    constructor; auto.
Qed.

Lemma Forall2_nth_error_right {A B} (R : A -> B -> Prop) (l : list A) (l' : list B) (i : nat) (y : B) :
  Forall2 R l l' -> nth_error l' i = Some y -> exists x, nth_error l i = Some x /\ R x y.
Proof.
  intros H; revert i; induction H as [|x y' l l' Hxy H IH]; intros [|i] Hi; simpl in *;
    try discriminate.
  - injection Hi as <-. eauto.
  - apply IH. exact Hi.
Qed.

Lemma mapM_panic {A B} (f : A -> Outcome B) (l : list A) (x : A) :
  In x l -> f x = Panic -> mapM f l = Panic.
Proof.
  induction l as [|y l IH]; intros Hx Hf; [destruct Hx|]. simpl.
  destruct Hx as [->|Hx]; [rewrite Hf; reflexivity|].
  destruct (f y); simpl; [|reflexivity]. rewrite (IH Hx Hf). reflexivity.
Qed.

Lemma foldM_app {A B} (f : A -> B -> Outcome A) (l1 l2 : list B) (a : A) :
  foldM f (l1 ++ l2) a = bindO (foldM f l1 a) (foldM f l2).
Proof.
  revert a; induction l1 as [|x l1 IH]; intros a; simpl; [reflexivity|].
  destruct (f a x); simpl; [apply IH|reflexivity].
Qed.

Lemma foldM_preserve {A B} (P : A -> Prop) (f : A -> B -> Outcome A) (l : list B) (a b : A) :
  (forall st st' x, In x l -> P st -> f st x = Ret st' -> P st') ->
  P a -> foldM f l a = Ret b -> P b.
Proof.
  revert a; induction l as [|x l IH]; intros a Hf Ha H; simpl in H.
  - injection H as <-. exact Ha.
  - destruct (f a x) as [a'|] eqn:E; [|discriminate]. simpl in H.
    apply (IH a'); [intros; eapply Hf; eauto; right; assumption|eapply Hf; eauto; left; reflexivity|exact H].
Qed.

Lemma nth_error_theme_chains (theme_names : list string) (theme_descriptions : list (option ThemeInfo))
    (i : nat) (c : list nat) :
  nth_error (theme_chains theme_names theme_descriptions) i = Some c ->
  i < number_of_themes theme_names /\ c = theme_chain theme_names theme_descriptions i.
Proof.
  unfold theme_chains. rewrite nth_error_map, nth_error_seq.
  destruct (Nat.ltb i (number_of_themes theme_names)) eqn:Hi; simpl; [|discriminate].
  intros H; injection H as <-. apply Nat.ltb_lt in Hi. auto.
Qed.

Lemma nth_error_theme_chains_lt (theme_names : list string) (theme_descriptions : list (option ThemeInfo))
    (i : nat) :
  i < number_of_themes theme_names ->
  nth_error (theme_chains theme_names theme_descriptions) i = Some (theme_chain theme_names theme_descriptions i).
Proof.
  intros Hi. unfold theme_chains. rewrite nth_error_map, nth_error_seq.
  apply Nat.ltb_lt in Hi. rewrite Hi. reflexivity.
Qed.

Lemma nth_error_repeat_none {A} (n i : nat) (t : A) : nth_error (repeat None n) i <> Some (Some t).
Proof.
  intros H. apply nth_error_In in H. apply repeat_spec in H. discriminate.
Qed.

Section BuildLemmas.
Variable theme_names : list string.
Variable theme_descriptions : list (option ThemeInfo).

Lemma build_theme_inv (st st' : list (option ThemeInfo) * list (option Theme.t)) (idx : nat) :
  build_inv theme_names theme_descriptions st -> build_theme theme_names theme_descriptions st idx = Ret st' -> build_inv theme_names theme_descriptions st'.
Proof.
  destruct st as [ds full]. intros (H1 & H2 & H3). unfold build_theme, vec_get.
  destruct (nth_error ds idx) as [o|] eqn:Eg; [|discriminate]. cbn [bindO].
  assert (Hds : forall i d, nth_error (list_set ds idx None) i = Some (Some d) ->
                            nth_error theme_descriptions i = Some (Some d)).
  { intros i d Hi. destruct (Nat.eq_dec idx i) as [->|Hne].
    - assert (i < length ds) by (apply nth_error_Some; congruence).
      rewrite nth_error_list_set_eq in Hi by assumption. discriminate.
    - rewrite nth_error_list_set_ne in Hi by assumption. apply H2. exact Hi. }
  destruct o as [desc|].
  2:{ intros H; injection H as <-. split; [exact H1|split; [exact Hds|exact H3]]. }
  destruct (nth_error (theme_chains theme_names theme_descriptions) idx) as [c|] eqn:Ec;
    cbn [bindO]; [|discriminate].
  destruct (nth_error_theme_chains _ _ _ _ Ec) as [Hidx ->].
  destruct (mapM _ (tl _)) as [parents|] eqn:Em; cbn [bindO]; [|discriminate].
  unfold vec_set. destruct (Nat.ltb idx (length full)) eqn:Hl; cbn [bindO]; [|discriminate].
  apply Nat.ltb_lt in Hl. intros H; injection H as <-.
  split; [simpl; rewrite length_list_set; exact H1|split; [exact Hds|]].
  intros i t Hi. simpl in Hi. destruct (Nat.eq_dec idx i) as [<-|Hne].
  - rewrite nth_error_list_set_eq in Hi by assumption. injection Hi as <-.
    split; [simpl; apply H2; exact Eg|]. simpl.
    apply mapM_Forall2 in Em. eapply Forall2_impl; [|exact Em].
    intros p parent Hp. cbv beta in Hp. destruct (nth_error full p) as [[t'|]|] eqn:Ef;
      simpl in Hp; try discriminate. injection Hp as <-. apply (H3 p t' Ef).
  - rewrite nth_error_list_set_ne in Hi by assumption. apply H3. exact Hi.
Qed.

End BuildLemmas.

(** X13: when the build loops of [IconLocations::resolve_only] finish, there
    is one theme per surviving description, in the same order, and the
    parents of each theme are the themes of the rest of its chain, in chain
    order. *)
Theorem full_themes_follow_chains (theme_names : list string)
    (theme_descriptions : list (option ThemeInfo)) (themes : list Theme.t) :
  full_themes theme_names theme_descriptions = Ret themes ->
  length themes = number_of_themes theme_names /\
  forall i t, nth_error themes i = Some t ->
    nth_error theme_descriptions i = Some (Some (Theme.info t)) /\
    Forall2 (fun p parent => nth_error theme_descriptions p = Some (Some (Theme.info parent)))
            (tl (theme_chain theme_names theme_descriptions i)) (Theme.inherits_from t).
Proof.
  unfold full_themes.
  destruct (foldM _ _ _) as [st|] eqn:E; cbn [bindO]; [|discriminate].
  intros Hm.
  assert (Hinv : build_inv theme_names theme_descriptions st).
  { refine (foldM_preserve _ _ _ _ _ _ _ E).
    - intros st1 st2 c _ H1 H2. refine (foldM_preserve _ _ _ _ _ _ H1 H2).
      intros s1 s2 x _ Hs1 Hs2. exact (build_theme_inv _ _ _ _ _ Hs1 Hs2).
    - split; [apply repeat_length|split; [auto|]].
      intros i t H. exfalso. exact (nth_error_repeat_none _ _ _ H). }
  destruct Hinv as (H1 & _ & H3).
  apply mapM_Forall2 in Hm.
  split; [rewrite <- (Forall2_length Hm); exact H1|].
  intros i t Ht.
  destruct (Forall2_nth_error_right _ _ _ i t Hm Ht) as [o [Ho Hot]]. hnf in Hot.
  destruct o as [t'|]; simpl in Hot; [|discriminate]. injection Hot as ->.
  exact (H3 i t Ho).
Qed.

Lemma bfs_bounded (theme_names : list string) (theme_descriptions : list (option ThemeInfo))
    (fuel cursor : nat) (chain : list nat) :
  NoDup chain -> Forall (fun x => x < number_of_themes theme_names) chain ->
  Forall (fun x => x < number_of_themes theme_names) (bfs theme_names theme_descriptions fuel cursor chain).
Proof.
  revert cursor chain; induction fuel as [|fuel IH]; intros cursor chain Hnd Hb; simpl;
    [exact Hb|].
  destruct (nth_error chain cursor) as [node_idx|]; [|exact Hb].
  destruct (visit_inv theme_names theme_descriptions chain node_idx Hnd Hb) as (H1 & H2 & _).
  apply IH; assumption.
Qed.

Lemma theme_chain_NoDup_bounded (theme_names : list string)
    (theme_descriptions : list (option ThemeInfo)) (i : nat) :
  i < number_of_themes theme_names ->
  NoDup (theme_chain theme_names theme_descriptions i) /\
  Forall (fun x => x < number_of_themes theme_names) (theme_chain theme_names theme_descriptions i).
Proof.
  intros Hi.
  assert (H0 : NoDup [i]) by (constructor; [intros []|constructor]).
  assert (H1 : Forall (fun x => x < number_of_themes theme_names) [i]) by (constructor; auto).
  pose proof (bfs_NoDup _ theme_descriptions (S (number_of_themes theme_names)) 0 [i] H0 H1) as Hnd.
  pose proof (bfs_bounded _ theme_descriptions (S (number_of_themes theme_names)) 0 [i] H0 H1) as Hb.
  fold (bfs_chain theme_names theme_descriptions i) in Hnd, Hb.
  unfold theme_chain. destruct (hicolor_idx theme_names) as [h|] eqn:Eh; [|auto].
  destruct (contains _ h) eqn:Hc; [auto|].
  split.
  - apply NoDup_snoc; [exact Hnd|]. rewrite <- contains_In, Hc. discriminate.
  - apply Forall_app; split; [exact Hb|constructor; [|constructor]].
    unfold hicolor_idx in Eh. apply position_lt in Eh. exact Eh.
Qed.

Section Panic.
Variable theme_names : list string.
Variable theme_descriptions : list (option ThemeInfo).
Variables j k : nat.

Lemma build_theme_not_built (st st' : list (option ThemeInfo) * list (option Theme.t)) (idx : nat) :
  idx <> j -> idx <> k -> not_built_yet theme_descriptions j k st ->
  build_theme theme_names theme_descriptions st idx = Ret st' -> not_built_yet theme_descriptions j k st'.
Proof.
  destruct st as [ds full]. intros Hj Hk [H1 H2]. unfold build_theme, vec_get.
  destruct (nth_error ds idx) as [o|]; [|discriminate]. cbn [bindO].
  assert (Hds : nth_error (list_set ds idx None) j = nth_error theme_descriptions j)
    by (rewrite nth_error_list_set_ne by congruence; exact H2).
  destruct o as [desc|].
  2:{ intros H; injection H as <-. split; assumption. }
  destruct (nth_error (theme_chains theme_names theme_descriptions) idx); cbn [bindO]; [|discriminate].
  destruct (mapM _ _); cbn [bindO]; [|discriminate].
  unfold vec_set. destruct (Nat.ltb idx (length full)); cbn [bindO]; [|discriminate].
  intros H; injection H as <-. split; [|exact Hds].
  simpl. rewrite nth_error_list_set_ne by congruence. exact H1.
Qed.

End Panic.

(** X14: when all descriptions survive and the chain of theme 0 lists a theme
    [k] before a theme [j] whose own chain holds [k] after [j], the build
    loops of [IconLocations::resolve_only] panic: [j] is built first and
    [unwrap]s the theme [k], not built yet. This already happens without any
    inheritance cycle. *)
Theorem full_themes_panics_on_early_parent (theme_names : list string)
    (theme_descriptions : list (option ThemeInfo)) (X Y Z : list nat) (k j : nat) :
  0 < number_of_themes theme_names ->
  length theme_descriptions = number_of_themes theme_names ->
  Forall (fun o => o <> None) theme_descriptions ->
  theme_chain theme_names theme_descriptions 0 = (X ++ k :: Y ++ j :: Z)%list ->
  In k (tl (theme_chain theme_names theme_descriptions j)) ->
  full_themes theme_names theme_descriptions = Panic.
Proof.
  intros HN Hlen Hsome Hc0 Hk.
  destruct (theme_chain_NoDup_bounded theme_names theme_descriptions 0 HN) as [Hnd Hb].
  rewrite Hc0 in Hnd, Hb.
  apply NoDup_app_remove_l in Hnd. inversion Hnd as [|? ? Hk_notin Hnd']; subst.
  apply NoDup_app_remove_l in Hnd'. inversion Hnd' as [|? ? Hj_notin _]; subst.
  assert (Hkj : k <> j) by (intros ->; apply Hk_notin; apply in_or_app; right; left; reflexivity).
  assert (HkZ : ~ In k Z) by (intros H; apply Hk_notin; apply in_or_app; right; right; exact H).
  assert (HjN : j < number_of_themes theme_names).
  { rewrite Forall_forall in Hb. apply Hb. apply in_or_app; right; right.
    apply in_or_app; right; left; reflexivity. }
  assert (Hrev : rev (theme_chain theme_names theme_descriptions 0) =
                 (rev Z ++ j :: rev (X ++ k :: Y))%list).
  { rewrite Hc0.
    replace (X ++ k :: Y ++ j :: Z)%list with ((X ++ k :: Y) ++ j :: Z)%list
      by (rewrite <- app_assoc; reflexivity).
    rewrite rev_app_distr. simpl. rewrite <- app_assoc. reflexivity. }
  assert (Hfirst : foldM (build_theme theme_names theme_descriptions)
                     (rev (theme_chain theme_names theme_descriptions 0))
                     (theme_descriptions, repeat None (number_of_themes theme_names)) = Panic).
  { rewrite Hrev, foldM_app.
    destruct (foldM _ (rev Z) _) as [st|] eqn:E; cbn [bindO]; [|reflexivity].
    assert (Hst : not_built_yet theme_descriptions j k st).
    { refine (foldM_preserve _ _ _ _ _ _ _ E).
      - intros s1 s2 x Hx. apply in_rev in Hx.
        apply build_theme_not_built; intros ->; contradiction.
      - split; [intros t; apply nth_error_repeat_none|reflexivity]. }
    destruct st as [ds full]. destruct Hst as [H1 H2]. simpl in H1, H2.
    cbn [foldM]. unfold build_theme at 1, vec_get at 1. rewrite H2.
    destruct (nth_error theme_descriptions j) as [[desc|]|] eqn:Ed.
    - cbn [bindO]. unfold vec_get at 1. rewrite (nth_error_theme_chains_lt _ _ _ HjN). cbn [bindO].
      rewrite (mapM_panic _ _ k Hk); [reflexivity|].
      unfold vec_get. specialize (H1 : forall t, nth_error full k <> Some (Some t)).
      destruct (nth_error full k) as [[t|]|]; cbn [bindO unwrap]; [|reflexivity|reflexivity].
      exfalso; exact (H1 t eq_refl).
    - apply nth_error_In in Ed. rewrite Forall_forall in Hsome. exfalso; exact (Hsome _ Ed eq_refl).
    - apply nth_error_None in Ed. lia. }
  unfold full_themes, theme_chains.
  destruct (number_of_themes theme_names) as [|n] eqn:En; [lia|].
  cbn [seq map foldM]. rewrite Hfirst. reflexivity.
Qed.

Lemma string_eqb_sym (a b : string) : String.eqb a b = String.eqb b a.
Proof.
  destruct (String.eqb_spec a b) as [->|Hne]; [rewrite String.eqb_refl; reflexivity|].
  destruct (String.eqb_spec b a) as [->|_]; [congruence|reflexivity].
Qed.

Lemma lookup_push_entry (name k v : string) (m : list (string * list string)) :
  Icons.lookup name (push_entry k v m) =
  if String.eqb k name then opt_extend (Icons.lookup name m) [v] else Icons.lookup name m.
Proof.
  induction m as [|[k' vs] r IH]; simpl.
  - rewrite (string_eqb_sym name k). destruct (String.eqb k name); reflexivity.
  - destruct (String.eqb k k') eqn:Ek; simpl.
    + apply String.eqb_eq in Ek; subst k'.
      rewrite (string_eqb_sym name k). destruct (String.eqb k name); reflexivity.
    + rewrite IH. destruct (String.eqb name k') eqn:En; [|reflexivity].
      apply String.eqb_eq in En; subst k'.
      rewrite Ek. reflexivity.
Qed.

Lemma opt_extend_app {A} (o : option (list A)) (ps1 ps2 : list A) :
  opt_extend (opt_extend o ps1) ps2 = opt_extend o (ps1 ++ ps2).
Proof.
  destruct o as [vs|], ps1 as [|x ps1], ps2 as [|y ps2]; simpl;
    rewrite ?app_nil_r, <- ?app_assoc; reflexivity.
Qed.

Lemma lookup_fold_push (name : string) (l : list (FileKind * string * string))
    (m : list (string * list string)) :
  Icons.lookup name
    (fold_left (fun m e => match e with (_, theme_name, p) => push_entry theme_name p m end) l m) =
  opt_extend (Icons.lookup name m) (group_paths name l).
Proof.
  revert m; induction l as [|[[ft n] p] l IH]; intros m; simpl.
  - destruct (Icons.lookup name m) as [vs|]; simpl; rewrite ?app_nil_r; reflexivity.
  - rewrite IH, lookup_push_entry. unfold group_paths. simpl.
    destruct (String.eqb n name); simpl; [|reflexivity].
    rewrite opt_extend_app. reflexivity.
Qed.

(** X15: [IconLocations::find_icon_locations] maps a name to the paths of
    the entries of that name that are not regular files, in the order they
    were read, and has no key for a name without such an entry. *)
Theorem find_icon_locations_groups (read_dir : string -> option (list (option DirEntry)))
    (sd : SearchDirectories.t) (theme_name : string) :
  Icons.lookup theme_name
    (IconLocations.themes_directories (IconLocations.find_icon_locations read_dir sd)) =
  match group_paths theme_name
          (filter (fun e => match e with (ft, _, _) => negb (is_file ft) end)
                  (IconLocations.typed_entries read_dir (SearchDirectories.dirs sd))) with
  | [] => None
  | ps => Some ps
  end.
Proof.
  unfold IconLocations.find_icon_locations. cbn [IconLocations.themes_directories].
  rewrite lookup_fold_push. simpl. destruct (group_paths _ _); reflexivity.
Qed.

Lemma In_typed_entries (read_dir : string -> option (list (option DirEntry)))
    (dirs : list string) (ft : FileKind) (n p : string) :
  In (ft, n, p) (IconLocations.typed_entries read_dir dirs) <->
  exists base es e, In base dirs /\ read_dir base = Some es /\ In (Some e) es /\
    entry_file_type e = Some ft /\ n = entry_file_name e /\ p = join base n.
Proof.
  unfold IconLocations.typed_entries. rewrite in_flat_map. split.
  - intros [base [Hb Hin]]. destruct (read_dir base) as [es|] eqn:Hr; [|destruct Hin].
    rewrite in_flat_map in Hin. destruct Hin as [[e|] [He Hin]]; [|destruct Hin].
    destruct (entry_file_type e) as [ft'|] eqn:Ht; [|destruct Hin].
    destruct Hin as [Heq|[]]. injection Heq as <- <- <-.
    exists base, es, e. auto 7.
  - intros (base & es & e & Hb & Hr & He & Ht & -> & ->). exists base. split; [exact Hb|].
    rewrite Hr, in_flat_map. exists (Some e). split; [exact He|]. rewrite Ht. left; reflexivity.
Qed.

Lemma standalone_icons_In (read_dir : string -> option (list (option DirEntry)))
    (sd : SearchDirectories.t) (f : IconFile.t) :
  In f (IconLocations.standalone_icons (IconLocations.find_icon_locations read_dir sd)) <->
  exists base es e, In base (SearchDirectories.dirs sd) /\ read_dir base = Some es /\
    In (Some e) es /\ entry_file_type e = Some RegularFile /\
    from_path (join base (entry_file_name e)) = Some f.
Proof.
  unfold IconLocations.find_icon_locations. cbn [IconLocations.standalone_icons].
  rewrite in_flat_map. split.
  - intros [[[ft n] p] [Hin Hf]]. apply filter_In in Hin. destruct Hin as [Hin Hft].
    destruct ft; try discriminate Hft.
    apply In_typed_entries in Hin. destruct Hin as (base & es & e & Hb & Hr & He & Ht & -> & ->).
    destruct (from_path _) as [g|] eqn:Hg; [|destruct Hf]. destruct Hf as [<-|[]].
    exists base, es, e. auto.
  - intros (base & es & e & Hb & Hr & He & Ht & Hf).
    exists (RegularFile, entry_file_name e, join base (entry_file_name e)). split.
    + apply filter_In. split; [|reflexivity]. apply In_typed_entries. exists base, es, e. auto 7.
    + rewrite Hf. left; reflexivity.
Qed.

(** X16: the standalone icons of [IconLocations::find_icon_locations] are the
    icons [IconFile::from_path] makes of the regular files directly in a
    search directory; a symbolic link is never one. *)
Theorem find_icon_locations_standalone (read_dir : string -> option (list (option DirEntry)))
    (sd : SearchDirectories.t) (f : IconFile.t) :
  In f (IconLocations.standalone_icons (IconLocations.find_icon_locations read_dir sd)) <->
  exists base es e, In base (SearchDirectories.dirs sd) /\ read_dir base = Some es /\
    In (Some e) es /\ entry_file_type e = Some RegularFile /\
    from_path (join base (entry_file_name e)) = Some f.
Proof. exact (standalone_icons_In read_dir sd f). Qed.

Lemma find_some_split {A} (p : A -> bool) (l : list A) (x : A) :
  find p l = Some x ->
  exists pre post, l = (pre ++ x :: post)%list /\ p x = true /\ Forall (fun y => p y = false) pre.
Proof.
  induction l as [|y l IH]; simpl; [discriminate|].
  destruct (p y) eqn:Ey.
  - intros H; injection H as <-. exists [], l. auto.
  - intros H. destruct (IH H) as (pre & post & -> & Hx & Hpre).
    exists (y :: pre), post. auto.
Qed.

Lemma find_none_forall {A} (p : A -> bool) (l : list A) :
  (forall x, In x l -> p x = false) -> find p l = None.
Proof.
  induction l as [|y l IH]; simpl; intros H; [reflexivity|].
  rewrite (H y (or_introl eq_refl)). apply IH. auto.
Qed.

(** X17: [IconLocations::theme_description] fails with [NotAnIconTheme] for
    a name with no directory and for directories without [index.theme]; on
    success, the index is the first [index.theme] that exists, parsed, and
    the base dirs are all the directories of the name. *)
Theorem theme_description_spec (path_exists : string -> bool)
    (read_sections : string -> result (list (result SectionBytes.t EntryParseError)) IoError)
    (self : IconLocations.t) (nm : string) :
  (Icons.lookup nm (IconLocations.themes_directories self) = None ->
   IconLocations.theme_description path_exists read_sections self nm = Err (IoOther NotAnIconTheme)) /\
  (forall folders, Icons.lookup nm (IconLocations.themes_directories self) = Some folders ->
   (forall f, In f folders -> path_exists (join f "index.theme") = false) ->
   IconLocations.theme_description path_exists read_sections self nm = Err (IoOther NotAnIconTheme)) /\
  (forall info, IconLocations.theme_description path_exists read_sections self nm = Ok info ->
   exists folders pre post,
     Icons.lookup nm (IconLocations.themes_directories self) = Some folders /\
     map (fun f => join f "index.theme") folders = (pre ++ index_location info :: post)%list /\
     Forall (fun x => path_exists x = false) pre /\
     path_exists (index_location info) = true /\
     parse_from_file read_sections (index_location info) = Ok (index info) /\
     internal_name info = to_string_lossy nm /\
     base_dirs info = folders).
Proof.
  unfold IconLocations.theme_description, new_from_folders.
  split; [intros ->; reflexivity|split].
  - intros folders -> Hf. rewrite find_none_forall; [reflexivity|].
    intros x Hx. apply in_map_iff in Hx. destruct Hx as [f [<- Hf']]. exact (Hf f Hf').
  - intros info. destruct (Icons.lookup nm _) as [folders|]; [|discriminate].
    destruct (find path_exists _) as [loc|] eqn:Hl; [|discriminate].
    destruct (parse_from_file read_sections loc) as [ix|e] eqn:Hp; simpl; [|discriminate].
    intros H; injection H as <-. simpl.
    destruct (find_some_split _ _ _ Hl) as (pre & post & Hsplit & Hx & Hpre).
    exists folders, pre, post. auto 8.
Qed.

Lemma from_path_path_stem (p : string) (f : IconFile.t) :
  from_path p = Some f -> IconFile.path f = p /\ file_stem p = Some (IconFile.name f).
Proof.
  unfold from_path. destruct (from_path_ext p) as [ft|]; [|discriminate].
  destruct (file_stem p) as [stem|]; [|discriminate].
  intros H; injection H as <-. auto.
Qed.

(** X18: [IconLocations::standalone_icon] on the found locations returns an
    icon of the requested name, made from a regular file of a search
    directory. *)
Theorem standalone_icon_found (read_dir : string -> option (list (option DirEntry)))
    (sd : SearchDirectories.t) (icon_name : string) (f : IconFile.t) :
  IconLocations.standalone_icon (IconLocations.find_icon_locations read_dir sd) icon_name = Some f ->
  IconFile.name f = icon_name /\
  exists base es e, In base (SearchDirectories.dirs sd) /\ read_dir base = Some es /\
    In (Some e) es /\ entry_file_type e = Some RegularFile /\
    IconFile.path f = join base (entry_file_name e) /\
    from_path (join base (entry_file_name e)) = Some f.
Proof.
  unfold IconLocations.standalone_icon. intros H.
  apply find_some in H. destruct H as [Hin Hm].
  apply standalone_icons_In in Hin.
  destruct Hin as (base & es & e & Hb & Hr & He & Ht & Hf).
  destruct (from_path_path_stem _ _ Hf) as [Hp Hs].
  rewrite Hp, Hs in Hm. apply String.eqb_eq in Hm.
  split; [exact Hm|]. exists base, es, e. auto 7.
Qed.

Lemma full_themes_panics_on_early_parent_witness :
  full_themes diamond_names diamond_descs = Panic.
Proof.
  apply (full_themes_panics_on_early_parent diamond_names diamond_descs [0] [] [] 1 2).
  - vm_compute. lia.
  - reflexivity.
  - repeat constructor; discriminate.
  - vm_compute. reflexivity.
  - vm_compute. left. reflexivity.
Defined.

Lemma full_themes_follow_chains_witness :
  exists themes, full_themes diamond_names ordered_descs = Ret themes /\
    length themes = 3 /\
    (forall i t, nth_error themes i = Some t ->
      nth_error ordered_descs i = Some (Some (Theme.info t)) /\
      Forall2 (fun p parent => nth_error ordered_descs p = Some (Some (Theme.info parent)))
              (tl (theme_chain diamond_names ordered_descs i)) (Theme.inherits_from t)).
Proof.
  destruct (full_themes diamond_names ordered_descs) as [themes|] eqn:E;
    [|vm_compute in E; discriminate].
  exists themes. split; [reflexivity|].
  exact (full_themes_follow_chains diamond_names ordered_descs themes E).
Defined.

Lemma find_icon_here_exact_first_witness :
  exists f, Theme.find_icon_here (fs_of [t_png]) Debug theme_t "a" 32 1 = Ret (Some f).
Proof.
  destruct (find_icon_here_exact_first (fs_of [t_png]) Debug theme_t "a" 32 1
              "/usr/share/icons/t" dir_32 "a.png"
              {| IconFile.path := t_png; IconFile.name := "a"; IconFile.file_type := Png |})
    as (b & sd & fn & f & H & _).
  - split; [left; reflexivity|split; [left; reflexivity|split; [left; reflexivity|]]].
    vm_compute. reflexivity.
  - reflexivity.
  - exists f. exact H.
Defined.

Lemma parse_theme_index_defaults_witness :
  find_attr birch_theme_section "Name" = Ok (Some "Birch") /\
  (find_attr birch_theme_section "Hidden" = Ok None -> hidden birch_index = false).
Proof.
  destruct (parse_theme_index_defaults birch_theme_section birch_rest birch_index)
    as (H1 & _ & _ & _ & _ & H6 & _).
  - vm_compute. reflexivity.
  - split; [exact H1|exact H6].
Defined.

Lemma parse_directory_index_fields_witness :
  to_str (SectionBytes.title birch_dir_section) = Some "scalable/apps" /\
  find_attr birch_dir_section "Context" = Ok (Some "Applications").
Proof.
  destruct (parse_directory_index_fields birch_dir_section birch_scalable_apps)
    as (H1 & _ & _ & _ & _ & H6).
  - vm_compute. reflexivity.
  - split; [exact H1|exact H6].
Defined.

Lemma parse_directories_listed_witness :
  exists sec, In (Ok sec) birch_rest /\ SectionBytes.title sec = "scalable/apps".
Proof.
  destruct (parse_directories_listed birch_theme_section birch_rest birch_index
              "scalable/apps" None birch_scalable_apps) as [H _].
  - vm_compute. reflexivity.
  - vm_compute. reflexivity.
  - vm_compute. reflexivity.
  - left; reflexivity.
  - exact H.
Defined.

Lemma parse_listed_sections_kept_witness :
  exists d, parse_directory_index birch_dir_section = Ok d /\
    (False -> In (set_scaled d) (directories birch_index)) /\
    (~ False -> In d (directories birch_index)).
Proof.
  apply (parse_listed_sections_kept birch_theme_section birch_rest birch_index
           "scalable/apps" None birch_dir_section "scalable/apps").
  - vm_compute. reflexivity.
  - vm_compute. reflexivity.
  - vm_compute. reflexivity.
  - left; reflexivity.
  - vm_compute. reflexivity.
  - left; left; reflexivity.
Defined.

Lemma theme_chain_closed_witness :
  hd_error (theme_chain chain_names chain_descriptions 2) = Some 2.
Proof.
  destruct (theme_chain_closed chain_names chain_descriptions 2) as [H _].
  - vm_compute. lia.
  - exact H.
Defined.

Lemma standalone_icon_found_witness :
  exists f, IconLocations.standalone_icon
              (IconLocations.find_icon_locations pixmaps_read_dir pixmaps_dirs) "a" = Some f /\
    IconFile.name f = "a".
Proof.
  destruct (IconLocations.standalone_icon
              (IconLocations.find_icon_locations pixmaps_read_dir pixmaps_dirs) "a") as [f|] eqn:E;
    [|vm_compute in E; discriminate].
  exists f. split; [reflexivity|].
  destruct (standalone_icon_found pixmaps_read_dir pixmaps_dirs "a" f E) as [H _]. exact H.
Defined.
